(** * RSSKING: the ingestion pipeline (fetcher.py) and the digest
      validator (digest.py), embedded in Rocq.

    Conventions of the embedding.

    - A Python [str] is a Rocq [string] whose characters are read as the
      code points U+0000..U+00FF; [isspace], [lower] and the regular
      expression class [\w] are those of Python 3 on that range.
    - A [datetime] aware of UTC is the number of microseconds since
      1970-01-01T00:00:00Z, a [Z].  [datetime.now] is an input: a function
      that reads the clock receives the instant it read.
    - A Python [float] score is a rational [Q]: binary64 arithmetic is read
      as exact arithmetic.
    - A Python dictionary is a [gmap], a Python set a [gset]; a row of a
      table is a record with the columns the code reads.
    - The store, the feed sources and the log are explicit: a run returns
      the trace of its store calls and log records, and receives what each
      call answered. *)

From Stdlib Require Import ZArith QArith Qround Qminmax String Ascii List Lia Lqa.
From stdpp Require Import base gmap sets list strings.

#[local] Set Warnings "-register-all,-clear-no-such-hyp".
#[local] Open Scope Z_scope.

(** ** Python strings *)

Module PyStr.

Definition code (c : ascii) : N := N_of_ascii c.

Definition between (lo hi n : N) : bool := ((lo <=? n) && (n <=? hi))%N.

(** [str.isspace] on one character; also the class [\s]. *)
Definition isspace (c : ascii) : bool :=
  let n := code c in
  between 9 13 n || between 28 32 n || (n =? 133)%N || (n =? 160)%N.

(** The class [\w] of [re] on [str] patterns: alphanumeric or [_]. *)
Definition isword (c : ascii) : bool :=
  let n := code c in
  between 48 57 n || between 65 90 n || between 97 122 n || (n =? 95)%N
  || (n =? 170)%N || between 178 179 n || (n =? 181)%N
  || between 185 186 n || between 188 190 n
  || between 192 214 n || between 216 246 n || between 248 255 n.

(** [str.lower] on one character. *)
Definition lower_char (c : ascii) : ascii :=
  let n := code c in
  if between 65 90 n || between 192 214 n || between 216 222 n
  then ascii_of_N (n + 32) else c.

Fixpoint lower (s : string) : string :=
  match s with
  | EmptyString => EmptyString
  | String c r => String (lower_char c) (lower r)
  end.

Fixpoint lstrip (s : string) : string :=
  match s with
  | EmptyString => EmptyString
  | String c r => if isspace c then lstrip r else s
  end.

Definition is_empty (s : string) : bool :=
  match s with EmptyString => true | _ => false end.

Fixpoint rstrip (s : string) : string :=
  match s with
  | EmptyString => EmptyString
  | String c r =>
      let r' := rstrip r in
      if is_empty r' && isspace c then EmptyString else String c r'
  end.

(** [s.strip()] *)
Definition strip (s : string) : string := rstrip (lstrip s).

(** [s[:n]] for [n >= 0] *)
Fixpoint slice_to (n : nat) (s : string) : string :=
  match n, s with
  | S n', String c r => String c (slice_to n' r)
  | _, _ => EmptyString
  end.

(** [kw in s] *)
Fixpoint contains (kw s : string) : bool :=
  String.prefix kw s ||
  match s with
  | EmptyString => false
  | String _ r => contains kw r
  end.

(** A word of the pattern matches at the head of [s], ignoring case. *)
Fixpoint iprefix (w s : string) : option string :=
  match w, s with
  | EmptyString, _ => Some s
  | String a w', String c s' =>
      if Ascii.eqb a (lower_char c) && between 0 127 (code c)
      then iprefix w' s' else None
  | String _ _, EmptyString => None
  end.

(** The position right of a matched word is a word boundary. *)
Definition boundary_after (rest : string) : bool :=
  match rest with
  | EmptyString => true
  | String c _ => negb (isword c)
  end.

(** [re.compile(r"\b(w1|...|wn)\b", re.IGNORECASE).search(s)] is not
    [None], for words [ws] made of lower-case ASCII letters.
    [prev] tells whether the character left of [s] is a word character. *)
Fixpoint search_words_from (ws : list string) (prev : bool) (s : string) : bool :=
  match s with
  | EmptyString => false
  | String c r =>
      (negb prev &&
       existsb (fun w => match iprefix w s with
                         | Some rest => boundary_after rest
                         | None => false
                         end) ws)
      || search_words_from ws (isword c) r
  end.

Definition search_words (ws : list string) (s : string) : bool :=
  search_words_from ws false s.

(** [re.sub(r"<[^>]+>", " ", s)]: [buf] holds, reversed, the characters
    read since an open [<] that has not met its [>] yet. *)
Fixpoint sub_tags_from (buf : option (list ascii)) (s : string) : string :=
  match s with
  | EmptyString =>
      match buf with
      | None => EmptyString
      | Some b => String "<"%char (string_of_list_ascii (rev b))
      end
  | String c r =>
      match buf with
      | None =>
          if Ascii.eqb c "<"%char then sub_tags_from (Some []) r
          else String c (sub_tags_from None r)
      | Some [] =>
          if Ascii.eqb c ">"%char
          then String "<"%char (String ">"%char (sub_tags_from None r))
          else sub_tags_from (Some [c]) r
      | Some b =>
          if Ascii.eqb c ">"%char
          then String " "%char (sub_tags_from None r)
          else sub_tags_from (Some (c :: b)) r
      end
  end.

Definition sub_tags (s : string) : string := sub_tags_from None s.

(** [re.sub(r"\s+", " ", s)]: [inrun] tells whether the character left
    of [s] was white space, already replaced. *)
Fixpoint sub_spaces_from (inrun : bool) (s : string) : string :=
  match s with
  | EmptyString => EmptyString
  | String c r =>
      if isspace c
      then (if inrun then sub_spaces_from true r
            else String " "%char (sub_spaces_from true r))
      else String c (sub_spaces_from false r)
  end.

Definition sub_spaces (s : string) : string := sub_spaces_from false s.

End PyStr.

(** ** Python values read from JSON *)

(** What a column of a row or a leaf of a parsed JSON text holds. *)
Inductive scalar :=
| SNone
| SBool (b : bool)
| SInt (z : Z)
| SFloat (q : Q)
| SStr (s : string).

Inductive pyval :=
| VScalar (s : scalar)
| VList (l : list pyval)
| VDict (d : gmap string pyval).

Coercion VScalar : scalar >-> pyval.

#[global] Instance Q_eq_dec : EqDecision Q.
Proof. solve_decision. Defined.

#[global] Instance scalar_eq_dec : EqDecision scalar.
Proof. solve_decision. Defined.

Module PyVal.

(** [isinstance(v, int)], with the integer [v] is: [bool] is a subclass
    of [int], [True] is 1 and [False] is 0. *)
Definition as_int (v : pyval) : option Z :=
  match v with
  | VScalar (SInt z) => Some z
  | VScalar (SBool b) => Some (if b then 1 else 0)
  | _ => None
  end.

(** The integer a scalar equals as a dictionary key: [True == 1],
    [1.0 == 1], and equal keys have equal hashes. *)
Definition key_int (k : scalar) : option Z :=
  match k with
  | SInt z => Some z
  | SBool b => Some (if b then 1 else 0)
  | SFloat q => if Qeq_bool q (inject_Z (Qfloor q)) then Some (Qfloor q) else None
  | SNone | SStr _ => None
  end.

(** [d.get(k)] on a dictionary whose keys are integers. *)
Definition int_dict_get {V} (d : gmap Z V) (k : scalar) : option V :=
  match key_int k with
  | Some z => d !! z
  | None => None
  end.

End PyVal.

(** ** Instants *)

Module DateTime.

Definition is_leap (y : Z) : bool :=
  ((y mod 4 =? 0) && negb (y mod 100 =? 0)) || (y mod 400 =? 0).

Definition days_in_month (y m : Z) : Z :=
  if m =? 2 then (if is_leap y then 29 else 28)
  else if (m =? 4) || (m =? 6) || (m =? 9) || (m =? 11) then 30
  else 31.

(** Days from 1970-01-01 to the date [y]-[m]-[d] of the proleptic
    Gregorian calendar. *)
Definition days_from_civil (y m d : Z) : Z :=
  let y' := if m <=? 2 then y - 1 else y in
  let era := y' / 400 in
  let yoe := y' - era * 400 in
  let mp := if m <=? 2 then m + 9 else m - 3 in
  let doy := (153 * mp + 2) / 5 + d - 1 in
  let doe := yoe * 365 + yoe / 4 - yoe / 100 + doy in
  era * 146097 + doe - 719468.

Definition us_per_second : Z := 1000000.
Definition us_per_day : Z := 86400 * us_per_second.

(** The first six fields of a [time.struct_time]. *)
Record struct_time := {
  tm_year : Z; tm_mon : Z; tm_mday : Z;
  tm_hour : Z; tm_min : Z; tm_sec : Z
}.

(** The [datetime] built from the first six fields of [t] with
    [tzinfo=timezone.utc]; [None] when the constructor raises
    [ValueError]. *)
Definition of_struct_time (t : struct_time) : option Z :=
  let '(y, m, d) := (tm_year t, tm_mon t, tm_mday t) in
  let '(hh, mm, ss) := (tm_hour t, tm_min t, tm_sec t) in
  if (1 <=? y) && (y <=? 9999) && (1 <=? m) && (m <=? 12)
     && (1 <=? d) && (d <=? days_in_month y m)
     && (0 <=? hh) && (hh <=? 23) && (0 <=? mm) && (mm <=? 59)
     && (0 <=? ss) && (ss <=? 59)
  then Some ((days_from_civil y m d * 86400 + hh * 3600 + mm * 60 + ss)
             * us_per_second)
  else None.

(** [timedelta(days=n)] *)
Definition days (n : Z) : Z := n * us_per_day.

(** [delta.total_seconds()] *)
Definition total_seconds (delta : Z) : Q := inject_Z delta / inject_Z us_per_second.

End DateTime.

(** ** fetcher.py *)

Module Fetcher.

(** A row of the [feeds] table.  [id], [name] and [url] are read by
    subscript; [tier], [max_items] and [category] are read with
    [feed.get], [None] standing for a key that is not there. *)
Module Feed.
Record t := {
  id : scalar;
  name : string;
  url : string;
  tier : option scalar;
  max_items : option (option Z);
  category : option scalar
}.
End Feed.

(** One element of an entry's [tags]. *)
Module Tag.
Record t := { term : option string }.
End Tag.

(** An entry as the feed parser returns it, with the key
    [_published_dt] that [main] adds. *)
Module Entry.
Record t := {
  link : option string;
  title : option string;
  summary : option string;
  content : option (list (option string));
  tags : option (list Tag.t);
  published_parsed : option DateTime.struct_time;
  _published_dt : option Z
}.

(** [entry["_published_dt"] = published] *)
Definition set_published_dt (published : option Z) (e : t) : t :=
  {| link := link e; title := title e; summary := summary e;
     content := content e; tags := tags e;
     published_parsed := published_parsed e;
     _published_dt := published |}.
End Entry.

(** A row handed to the [items] table; [published_at] keeps the instant
    that [isoformat] prints. *)
Module Item.
Record t := {
  feed_id : scalar;
  title : string;
  url : string;
  summary : string;
  published_at : option Z;
  score : Q;
  category : scalar;
  source_name : string
}.
End Item.

Definition MAX_AGE_DAYS : Z := 30.

Definition TIER_WEIGHTS : gmap Z Z := {[ 1 := 40; 2 := 20 ]}.
Definition TIME_DECAY_MAX : Z := 50.
Definition MULTI_SOURCE_BUMP : Z := 40.
Definition METADATA_BUMP : Z := 30.
Definition TITLE_PATTERN_BUMP : Z := 20.
Definition KEYWORD_BOOST : Z := 20.
Definition KEYWORD_PENALTY : Z := -30.

Definition BREAKING_PATTERNS : list string :=
  ["breaking"; "urgent"; "flash"; "alert"; "exclusive"].

Definition NOISE_KEYWORDS : list string :=
  ["sponsored"; "advertisement"; "buy now"; "subscribe now";
   "limited offer"; "click here"].

Definition METADATA_TAGS : list string :=
  ["featured"; "breaking"; "top-news"; "editors-pick"].

(** [round(x, 2)]: to the nearest hundredth, a tie to the even one. *)
Definition round2 (x : Q) : Q :=
  let y := (x * 100)%Q in
  let f := Qfloor y in
  let n := match ((y - inject_Z f) ?= 1 # 2)%Q with
           | Lt => f
           | Gt => f + 1
           | Eq => if Z.even f then f else f + 1
           end in
  n # 100.

(** [TIER_WEIGHTS.get(feed.get("tier", 2), 20)] *)
Definition tier_weight (feed : Feed.t) : Z :=
  default 20 (PyVal.int_dict_get TIER_WEIGHTS (default (SInt 2) (Feed.tier feed))).

(** [max(0, 1 - age_days / MAX_AGE_DAYS)], the clock reading [now]. *)
Definition decay (now published : Z) : Q :=
  let age_hours := (DateTime.total_seconds (now - published) / 3600)%Q in
  let age_days := (age_hours / 24)%Q in
  Qmax 0 (1 - age_days / inject_Z MAX_AGE_DAYS)%Q.

(** What the time decay adds to the score. *)
Definition recency (now : Z) (published : option Z) : Q :=
  match published with
  | Some p => (decay now p * inject_Z TIME_DECAY_MAX)%Q
  | None => 0%Q
  end.

(** [url_feed_count.get(url, 1) >= 3] for [url = item.get("link", "")] *)
Definition multi_source (item : Entry.t) (url_feed_count : gmap string Z) : bool :=
  let url := default ""%string (Entry.link item) in
  3 <=? default 1 (url_feed_count !! url).

Definition tag_terms (item : Entry.t) : list string :=
  map (fun t => PyStr.lower (default ""%string (Tag.term t)))
      (default [] (Entry.tags item)).

Definition has_metadata_tag (item : Entry.t) : bool :=
  existsb (fun t => bool_decide (t ∈ METADATA_TAGS)) (tag_terms item).

Definition has_breaking_title (item : Entry.t) : bool :=
  PyStr.search_words BREAKING_PATTERNS (default ""%string (Entry.title item)).

Definition has_noise (item : Entry.t) : bool :=
  let title := default ""%string (Entry.title item) in
  let combined :=
    PyStr.lower (title ++ " " ++ default ""%string (Entry.summary item)) in
  existsb (fun kw => PyStr.contains kw combined) NOISE_KEYWORDS.

(** [score_item(item, feed, url_feed_count)], reading [now] on the
    clock. *)
Definition score_item (now : Z) (item : Entry.t) (feed : Feed.t)
    (url_feed_count : gmap string Z) : Q :=
  let score := 0%Q in
  let score := (score + inject_Z (tier_weight feed))%Q in
  let published := Entry._published_dt item in
  let score := match published with
               | Some p => (score + decay now p * inject_Z TIME_DECAY_MAX)%Q
               | None => score
               end in
  let score := if multi_source item url_feed_count
               then (score + inject_Z MULTI_SOURCE_BUMP)%Q else score in
  let score := if has_metadata_tag item
               then (score + inject_Z METADATA_BUMP)%Q else score in
  let score := if has_breaking_title item
               then (score + inject_Z TITLE_PATTERN_BUMP)%Q else score in
  let score := if has_noise item
               then (score + inject_Z KEYWORD_PENALTY)%Q else score in
  round2 score.

(** [parse_published(entry)] *)
Definition parse_published (entry : Entry.t) : option Z :=
  match Entry.published_parsed entry with
  | Some t => DateTime.of_struct_time t
  | None => None
  end.

(** [summarise(entry)] with [max_chars] = 500 *)
Definition summarise (entry : Entry.t) : string :=
  let text :=
    match Entry.summary entry with
    | Some (String c s) => String c s
    | _ =>
        match Entry.content entry with
        | Some (block :: _) => default ""%string block
        | _ => ""%string
        end
    end in
  let text := PyStr.sub_tags text in
  let text := PyStr.strip (PyStr.sub_spaces text) in
  PyStr.slice_to 500 text.

(** [l[:stop]], [stop] being [None] or an integer. *)
Definition slice_to {A} (stop : option Z) (l : list A) : list A :=
  match stop with
  | None => l
  | Some n => if 0 <=? n then take (Z.to_nat n) l
              else take (length l - Z.to_nat (- n)) l
  end.

(** The canonical url of an entry: [entry.get("link", "").strip()] *)
Definition entry_url (entry : Entry.t) : string :=
  PyStr.strip (default ""%string (Entry.link entry)).

(** *** Log records and store calls *)

Inductive Level := INFO | WARNING | ERROR.

Inductive Message :=
| FetchingActiveFeeds
| FoundFeeds (n : nat)
| NothingToDo
| AlreadyInDatabase (n : nat)
| Fetching (name url : string)
| FailedToFetch (url e : string)
| NewItemsToInsert (n : nat)
| NoNewItems
| Inserted (inserted total : nat)
| InsertError (e : string)
| Done (inserted : nat)
| OldItemsCleanedUp
| CleanupError (e : string).

Inductive StoreCall :=
| InsertItems (chunk : list Item.t)
| DeletePublishedBefore (old_cutoff : Z)
| DeleteUndatedFetchedBefore (old_cutoff : Z).

Inductive Event :=
| Log (level : Level) (m : Message)
| Call (c : StoreCall).

(** What [feedparser.parse] did for one feed. *)
Inductive Fetched :=
| Parsed (entries : list Entry.t)
| Raised (e : string).

(** *** First pass of [main]: candidates and correlation counts *)

Record Pass1 := {
  url_feed_count : gmap string Z;
  all_candidates : list (Entry.t * Feed.t)
}.

(** The body of [for entry in entries]. *)
Definition scan_entry (cutoff : Z) (feed : Feed.t) (st : Pass1) (entry : Entry.t)
    : Pass1 :=
  let url := entry_url entry in
  if PyStr.is_empty url then st else
  let published := parse_published entry in
  let entry := Entry.set_published_dt published entry in
  if match published with Some p => p <? cutoff | None => false end then st else
  {| url_feed_count :=
       <[url := default 0 (url_feed_count st !! url) + 1]> (url_feed_count st);
     all_candidates := all_candidates st ++ [(entry, feed)] |}.

(** The body of [for feed in feeds]. *)
Definition scan_feed (cutoff : Z) (acc : Pass1 * list Event)
    (src : Feed.t * Fetched) : Pass1 * list Event :=
  let '(st, log) := acc in
  let '(feed, fetched) := src in
  let log := log ++ [Log INFO (Fetching (Feed.name feed) (Feed.url feed))] in
  match fetched with
  | Raised e => (st, log ++ [Log WARNING (FailedToFetch (Feed.url feed) e)])
  | Parsed parsed_entries =>
      let entries :=
        slice_to (default (Some 10) (Feed.max_items feed)) parsed_entries in
      (foldl (scan_entry cutoff feed) st entries, log)
  end.

Definition first_pass (cutoff : Z) (feeds : list (Feed.t * Fetched))
    : Pass1 * list Event :=
  foldl (scan_feed cutoff)
        ({| url_feed_count := ∅; all_candidates := [] |}, []) feeds.

(** *** Second pass of [main]: scoring and deduplication *)

(** The row appended to [new_items]. *)
Definition new_item (now : Z) (url_feed_count : gmap string Z)
    (entry : Entry.t) (feed : Feed.t) : Item.t :=
  let url := entry_url entry in
  let published := Entry._published_dt entry in
  let score := score_item now entry feed url_feed_count in
  {| Item.feed_id := Feed.id feed;
     Item.title :=
       PyStr.slice_to 500 (PyStr.strip (default ""%string (Entry.title entry)));
     Item.url := url;
     Item.summary := summarise entry;
     Item.published_at := published;
     Item.score := score;
     Item.category := default (SStr "Uncategorized") (Feed.category feed);
     Item.source_name := Feed.name feed |}.

(** [for entry, feed, parsed in all_candidates], from the state
    [seen_urls]; the scoring of the item appended as number [k] reads
    the clock [clock k]. *)
Fixpoint second_pass (existing_urls : gset string) (clock : nat -> Z)
    (url_feed_count : gmap string Z) (seen_urls : gset string) (k : nat)
    (candidates : list (Entry.t * Feed.t)) : list Item.t :=
  match candidates with
  | [] => []
  | (entry, feed) :: rest =>
      let url := entry_url entry in
      if bool_decide (url ∈ existing_urls) || bool_decide (url ∈ seen_urls)
      then second_pass existing_urls clock url_feed_count seen_urls k rest
      else
        new_item (clock k) url_feed_count entry feed
        :: second_pass existing_urls clock url_feed_count
             ({[url]} ∪ seen_urls) (S k) rest
  end.

(** *** Persistence *)

(** [range(0, n, step)] *)
Definition range_step (n step : nat) : list nat :=
  map (fun j => j * step)%nat (seq 0 ((n + step - 1) / step)%nat).

(** The slices [new_items[i : i + chunk_size]]. *)
Definition chunks (chunk_size : nat) (new_items : list Item.t) : list (list Item.t) :=
  map (fun i => take chunk_size (drop i new_items))
      (range_step (length new_items) chunk_size).

(** The insertion loop; the store call number [k] of the run raises
    [e] when [answer k = Some e]. *)
Fixpoint insert_chunks (answer : nat -> option string) (total : nat)
    (k inserted : nat) (cs : list (list Item.t)) : list Event * nat :=
  match cs with
  | [] => ([], inserted)
  | chunk :: rest =>
      match answer k with
      | None =>
          let inserted := (inserted + length chunk)%nat in
          let '(ev, n) := insert_chunks answer total (S k) inserted rest in
          (Call (InsertItems chunk) :: Log INFO (Inserted inserted total) :: ev, n)
      | Some e =>
          let '(ev, n) := insert_chunks answer total (S k) inserted rest in
          (Call (InsertItems chunk) :: Log ERROR (InsertError e) :: ev, n)
      end
  end.

(** The retention sweep: both deletions in one [try]. *)
Definition cleanup (answer : nat -> option string) (k : nat) (old_cutoff : Z)
    : list Event :=
  Call (DeletePublishedBefore old_cutoff) ::
  match answer k with
  | Some e => [Log WARNING (CleanupError e)]
  | None =>
      Call (DeleteUndatedFetchedBefore old_cutoff) ::
      match answer (S k) with
      | Some e => [Log WARNING (CleanupError e)]
      | None => [Log INFO OldItemsCleanedUp]
      end
  end.

(** *** [main] *)

(** What one run receives: the active feeds with what their sources
    returned, the urls of the [items] table, the successive readings of
    the clock and the answers of the store to the insertions and
    deletions. *)
Record Run := {
  feeds : list (Feed.t * Fetched);
  existing_urls : gset string;
  clock : nat -> Z;
  answer : nat -> option string
}.

Definition cutoff (r : Run) : Z := clock r 0%nat - DateTime.days MAX_AGE_DAYS.

Definition pass1 (r : Run) : Pass1 := fst (first_pass (cutoff r) (feeds r)).

(** The batch [new_items] of the run. *)
Definition new_items (r : Run) : list Item.t :=
  second_pass (existing_urls r) (fun k => clock r (S k))
              (url_feed_count (pass1 r)) ∅ 0%nat (all_candidates (pass1 r)).

(** Lines 211 to 233 of [main]. *)
Definition persist (r : Run) (batch : list Item.t) : list Event :=
  let chunk_size := 100%nat in
  let cs := chunks chunk_size batch in
  let '(ev, inserted) := insert_chunks (answer r) (length batch) 0 0 cs in
  let old_cutoff := clock r (S (length batch)) - DateTime.days MAX_AGE_DAYS in
  ev ++ [Log INFO (Done inserted)] ++ cleanup (answer r) (length cs) old_cutoff.

Definition main (r : Run) : list Event :=
  let log := [Log INFO FetchingActiveFeeds;
              Log INFO (FoundFeeds (length (feeds r)))] in
  match feeds r with
  | [] => log ++ [Log INFO NothingToDo]
  | _ :: _ =>
      let log := log ++ [Log INFO (AlreadyInDatabase (size (existing_urls r)))] in
      let log := log ++ snd (first_pass (cutoff r) (feeds r)) in
      let batch := new_items r in
      let log := log ++ [Log INFO (NewItemsToInsert (length batch))] in
      match batch with
      | [] => log ++ [Log INFO NoNewItems]
      | _ :: _ => log ++ persist r batch
      end
  end.

(** The store calls of a trace, in order. *)
Definition calls (tr : list Event) : list StoreCall :=
  omap (fun ev => match ev with Call c => Some c | Log _ _ => None end) tr.

(** *** Notions used to state the properties of the pipeline *)

Definition bump (b : bool) (z : Z) : Q := if b then inject_Z z else 0%Q.

(** What the signals other than the tier add to the score. *)
Definition other_signals (now : Z) (item : Entry.t) (cnt : gmap string Z) : Q :=
  (recency now (Entry._published_dt item)
   + bump (multi_source item cnt) MULTI_SOURCE_BUMP
   + bump (has_metadata_tag item) METADATA_BUMP
   + bump (has_breaking_title item) TITLE_PATTERN_BUMP
   + bump (has_noise item) KEYWORD_PENALTY)%Q.

(** The age of an entry in days, as [score_item] computes it. *)
Definition age_days (now published : Z) : Q :=
  (DateTime.total_seconds (now - published) / 3600 / 24)%Q.

(** Thirty days, in microseconds. *)
Definition D30 : Z := 2592000000000.

Definition cand_url (c : Entry.t * Feed.t) : string := entry_url (fst c).

(** How many candidates carry the url [u]. *)
Definition occurrences (u : string) (cands : list (Entry.t * Feed.t)) : nat :=
  length (filter (fun c => cand_url c = u) cands).

(** The correlation index counts the candidates of each url. *)
Definition counts_candidates (st : Pass1) : Prop :=
  forall u, url_feed_count st !! u =
            if decide (occurrences u (all_candidates st) = 0%nat) then None
            else Some (Z.of_nat (occurrences u (all_candidates st))).

(** The correlation count in the words of the specification: the number
    of distinct feeds that present the canonical url [u] among the
    candidates, a feed being known by its [id]. *)
Definition spec_distinct_feeds (u : string) (cands : list (Entry.t * Feed.t)) : nat :=
  length (remove_dups (Feed.id ∘ snd <$> filter (fun c => cand_url c = u) cands)).

(** The store calls of the retention sweep. *)
Definition sweep_calls (ans : nat -> option string) (k : nat) (old_cutoff : Z)
    : list StoreCall :=
  DeletePublishedBefore old_cutoff ::
  match ans k with
  | None => [DeleteUndatedFetchedBefore old_cutoff]
  | Some _ => []
  end.

Definition old_cutoff (r : Run) : Z :=
  clock r (S (length (new_items r))) - DateTime.days MAX_AGE_DAYS.

Definition insert_calls (r : Run) : list StoreCall :=
  InsertItems <$> chunks 100 (new_items r).

(** One persistence operation fails, the call number [k], and every
    other one is still attempted: all the insertions and both
    deletions. *)
Definition spec_failure_blocks_nothing (r : Run) : Prop :=
  forall k e,
    answer r k = Some e -> (forall j, j <> k -> answer r j = None) ->
    (forall chunk, chunk ∈ chunks 100 (new_items r) ->
                   InsertItems chunk ∈ calls (main r))
    /\ DeletePublishedBefore (old_cutoff r) ∈ calls (main r)
    /\ DeleteUndatedFetchedBefore (old_cutoff r) ∈ calls (main r).

End Fetcher.

(** ** digest.py *)

Module Digest.

Definition TIME_WINDOW_HOURS : Z := 24.
Definition MAX_PICKS : Z := 5.

(** A row of the [items] table as [fetch_user_items] selects it. *)
Module Row.
Record t := {
  id : scalar;
  title : scalar;
  url : scalar;
  summary : scalar;
  source_name : scalar;
  category : scalar;
  score : scalar;
  published_at : scalar
}.
End Row.

(** An element of the [picks] of a digest. *)
Module Pick.
Record t := { item_id : scalar; reason : string }.
End Pick.

(** The row handed to the [digests] table. *)
Module DigestRow.
Record t := {
  user_id : string;
  overview : pyval;
  picks : list Pick.t;
  time_window_hours : Z;
  generated_at : Z
}.
End DigestRow.

Inductive Event :=
| SkippingPick (one_based : pyval)
| InsertDigest (row : DigestRow.t).

(** [l[i]]: a negative index counts from the end, [None] for
    [IndexError]. *)
Definition subscript {A} (l : list A) (i : Z) : option A :=
  let n := Z.of_nat (length l) in
  if (0 <=? i) && (i <? n) then l !! Z.to_nat i
  else if (- n <=? i) && (i <? 0) then l !! Z.to_nat (n + i)
  else None.

Section WithRepr.

(** [repr] of a value; [str] is [repr] but on a string. *)
Variable repr : pyval -> string.

Definition str (v : pyval) : string :=
  match v with
  | VScalar (SStr s) => s
  | _ => repr v
  end.

(** What the body of [for pick in raw_picks] does with one pick. *)
Inductive Visit :=
| Appended (p : Pick.t)
| NotADict
| InvalidIndex (one_based : pyval)
| IndexError.

Definition visit_pick (items : list Row.t) (pick : pyval) : Visit :=
  match pick with
  | VDict d =>
      let one_based := default (VScalar SNone) (d !! "index"%string) in
      match PyVal.as_int one_based with
      | Some i =>
          if (1 <=? i) && (i <=? Z.of_nat (length items))
          then match subscript items (i - 1) with
               | Some row =>
                   Appended
                     {| Pick.item_id := Row.id row;
                        Pick.reason :=
                          PyStr.slice_to 500
                            (str (default (VScalar (SStr "")) (d !! "reason"%string))) |}
               | None => IndexError
               end
          else InvalidIndex one_based
      | None => InvalidIndex one_based
      end
  | _ => NotADict
  end.

(** The loop over [raw_picks]: the picks kept and the warnings, or
    [None] when a subscript raised. *)
Fixpoint validate_picks (items : list Row.t) (raw_picks : list pyval)
    : option (list Pick.t * list Event) :=
  match raw_picks with
  | [] => Some ([], [])
  | pick :: rest =>
      match visit_pick items pick with
      | IndexError => None
      | Appended p =>
          '(ps, ev) ← validate_picks items rest; Some (p :: ps, ev)
      | NotADict => validate_picks items rest
      | InvalidIndex one_based =>
          '(ps, ev) ← validate_picks items rest;
          Some (ps, SkippingPick one_based :: ev)
      end
  end.

(** [result.get("picks")], emptied unless it is a list. *)
Definition raw_picks_of (result : gmap string pyval) : list pyval :=
  match result !! "picks"%string with
  | Some (VList l) => l
  | _ => []
  end.

(** [write_digest(sb, user_id, items, result)], reading [now] on the
    clock: the trace up to and with the insertion, or [None] when an
    exception is raised before it. *)
Definition write_digest (now : Z) (user_id : string) (items : list Row.t)
    (result : gmap string pyval) : option (list Event) :=
  let raw_picks := raw_picks_of result in
  '(picks, ev) ← validate_picks items raw_picks;
  Some (ev ++ [InsertDigest
         {| DigestRow.user_id := user_id;
            DigestRow.overview :=
              default (VScalar (SStr "")) (result !! "overview"%string);
            DigestRow.picks := picks;
            DigestRow.time_window_hours := TIME_WINDOW_HOURS;
            DigestRow.generated_at := now |}]).

(** *** Notions used to state the properties of the validation *)

(** The text kept as the reason of a pick. *)
Definition reason_of (d : gmap string pyval) : string :=
  PyStr.slice_to 500 (str (default (VScalar (SStr "")) (d !! "reason"%string))).

(** The pick appended for the pick dictionary [d] when its index
    resolves to the candidate [row]. *)
Definition resolved (row : Row.t) (d : gmap string pyval) : Pick.t :=
  {| Pick.item_id := Row.id row; Pick.reason := reason_of d |}.

(** The pick that survives, if any. *)
Definition kept (items : list Row.t) (pick : pyval) : option Pick.t :=
  match visit_pick items pick with
  | Appended p => Some p
  | _ => None
  end.

(** The row that [write_digest] inserts, its [picks] given. *)
Definition digest_row (now : Z) (user_id : string) (result : gmap string pyval)
    (picks : list Pick.t) : DigestRow.t :=
  {| DigestRow.user_id := user_id;
     DigestRow.overview := default (VScalar (SStr "")) (result !! "overview"%string);
     DigestRow.picks := picks;
     DigestRow.time_window_hours := TIME_WINDOW_HOURS;
     DigestRow.generated_at := now |}.

End WithRepr.

End Digest.

(** ** Concrete feeds, entries and runs *)

Module Samples.
Import Fetcher.

Definition entry_at (l : string) (p : option DateTime.struct_time) : Entry.t :=
  {| Entry.link := Some l; Entry.title := Some "Quarterly report"%string;
     Entry.summary := None; Entry.content := None; Entry.tags := None;
     Entry.published_parsed := p; Entry._published_dt := None |}.

Definition feed_of (i : Z) (t : Z) : Feed.t :=
  {| Feed.id := SInt i; Feed.name := "Wire"; Feed.url := "http://wire.example/rss";
     Feed.tier := Some (SInt t); Feed.max_items := None; Feed.category := None |}.

(** A run whose clock stands at the epoch. *)
Definition run_of (fs : list (Feed.t * Fetched)) (ex : gset string)
    (ans : nat -> option string) : Run :=
  {| feeds := fs; existing_urls := ex; clock := fun _ => 0; answer := ans |}.

(** One feed lists the same link three times. *)
Definition run_repeated : Run :=
  run_of [(feed_of 1 2,
           Parsed [entry_at "http://x" None; entry_at "http://x" None;
                   entry_at "http://x" None])]
         ∅ (fun _ => None).

(** Three feeds list the same link, written with a leading space. *)
Definition run_padded : Run :=
  run_of [(feed_of 1 2, Parsed [entry_at " http://x" None]);
          (feed_of 2 2, Parsed [entry_at " http://x" None]);
          (feed_of 3 2, Parsed [entry_at " http://x" None])]
         ∅ (fun _ => None).

(** 1970-01-04T00:00:00, three days after the clock of [run_of]. *)
Definition jan4 : DateTime.struct_time :=
  {| DateTime.tm_year := 1970; DateTime.tm_mon := 1; DateTime.tm_mday := 4;
     DateTime.tm_hour := 0; DateTime.tm_min := 0; DateTime.tm_sec := 0 |}.

(** One entry dated three days after the run. *)
Definition run_future : Run :=
  run_of [(feed_of 1 2, Parsed [entry_at "http://x" (Some jan4)])]
         ∅ (fun _ => None).

(** The second store call, the first deletion, raises. *)
Definition run_sweep_fails : Run :=
  run_of [(feed_of 1 2, Parsed [entry_at "http://x" None])] ∅
         (fun k => if (k =? 1)%nat then Some "timeout"%string else None).

(** Two feeds list [http://x]; [http://y] is in the store already. *)
Definition run_two_feeds : Run :=
  run_of [(feed_of 1 1, Parsed [entry_at "http://x" None; entry_at "http://y" None]);
          (feed_of 2 2, Parsed [entry_at "http://x" None])]
         {[ "http://y"%string ]} (fun _ => None).

Definition row_of (i : Z) : Digest.Row.t :=
  {| Digest.Row.id := SInt i; Digest.Row.title := SStr "t";
     Digest.Row.url := SStr "u"; Digest.Row.summary := SNone;
     Digest.Row.source_name := SStr "Wire"; Digest.Row.category := SNone;
     Digest.Row.score := SInt 20; Digest.Row.published_at := SNone |}.

(** A [repr] for the concrete checks, where [str] meets strings only. *)
Definition repr_blank (v : pyval) : string := ""%string.

End Samples.

(** ** digest.py: [sanitise_text] and [fetch_users] *)

Module DigestText.

(** The class [[\x00-\x08\x0b\x0c\x0e-\x1f\x7f]]. *)
Definition is_control (c : ascii) : bool :=
  let n := PyStr.code c in
  PyStr.between 0 8 n || PyStr.between 11 12 n || PyStr.between 14 31 n
  || (n =? 127)%N.

(** [re.sub(r"[\x00-\x08\x0b\x0c\x0e-\x1f\x7f]", "", text)] *)
Fixpoint sub_control (text : string) : string :=
  match text with
  | EmptyString => EmptyString
  | String c r => if is_control c then sub_control r else String c (sub_control r)
  end.

(** [s[:n]]: a negative [n] counts from the end. *)
Definition slice_upto (n : Z) (s : string) : string :=
  if 0 <=? n then PyStr.slice_to (Z.to_nat n) s
  else PyStr.slice_to (String.length s - Z.to_nat (- n)) s.

(** [sanitise_text(text, max_chars)]; [max_chars] is 2000 when the
    caller leaves it out. *)
Definition sanitise_text (text : string) (max_chars : Z) : string :=
  let cleaned := sub_control text in
  slice_upto max_chars cleaned.

End DigestText.

Module Users.

(** A row of [feeds] as [fetch_users] selects it. *)
Module FeedRow.
Record t := { user_id : string }.
End FeedRow.

(** A row of [user_profiles], with the columns the code reads. *)
Module Profile.
Record t := { user_id : string; display_name : scalar; interests : scalar }.
End Profile.

(** An element of the list [fetch_users] returns; [profile] is [None]
    for the empty dictionary. *)
Module User.
Record t := { user_id : string; profile : option Profile.t }.
End User.

(** [{p["user_id"]: p for p in profiles}] *)
Definition profile_map (profiles : list Profile.t) : gmap string Profile.t :=
  foldl (fun m p => <[Profile.user_id p := p]> m) ∅ profiles.

(** [fetch_users(sb)], given the rows the two queries answer.  The order
    in which Python lists a set is not specified; [elements] stands for
    it. *)
Definition fetch_users (feed_rows : list FeedRow.t) (profiles : list Profile.t)
    : list User.t :=
  let user_ids :=
    elements (list_to_set (FeedRow.user_id <$> feed_rows) : gset string) in
  match user_ids with
  | [] => []
  | _ :: _ =>
      let profile_map := profile_map profiles in
      (fun uid => {| User.user_id := uid; User.profile := profile_map !! uid |})
        <$> user_ids
  end.

End Users.

(** ** digest.py: [call_claude] and [main] *)

Module DigestMain.
Import Digest Users.

Inductive Level := INFO | WARNING | ERROR.

Inductive Message :=
| GeneratingDigest (n : nat)
| Processing (name : scalar)
| NoRecentItems (name : scalar)
| ArticlesToSummarise (n : nat)
| StarredArticles (n : nat)
| InvalidJSON (e : string)
| APIError (e : string)
| FailedToGetDigest (name : scalar)
| DigestWritten (name : scalar)
| Done.

(** A log record of [main] or of [call_claude], or what [write_digest]
    did: its warnings and its insertion. *)
Inductive Event :=
| Log (level : Level) (m : Message)
| InWriteDigest (e : Digest.Event).

(** [bool(v)] *)
Definition truthy_scalar (s : scalar) : bool :=
  match s with
  | SNone => false
  | SBool b => b
  | SInt z => negb (z =? 0)
  | SFloat q => negb (Qeq_bool q 0)
  | SStr s => negb (PyStr.is_empty s)
  end.

Definition truthy (v : pyval) : bool :=
  match v with
  | VScalar s => truthy_scalar s
  | VList l => match l with [] => false | _ :: _ => true end
  | VDict d => negb (bool_decide (d = ∅))
  end.

(** What the request of [call_claude] came to: the value [json.loads]
    read in the text of the message, or the exception raised. *)
Inductive Reply :=
| Json (v : pyval)
| JSONDecodeError (e : string)
| OtherException (e : string).

(** [call_claude(client, prompt)]: its log records and the value it
    returns. *)
Definition call_claude (reply : Reply) : list Event * pyval :=
  match reply with
  | Json v => ([], v)
  | JSONDecodeError e => ([Log ERROR (InvalidJSON e)], VScalar SNone)
  | OtherException e => ([Log ERROR (APIError e)], VScalar SNone)
  end.

(** What the calls made for one user answer: the rows of
    [fetch_user_items] and the titles of [fetch_user_starred], [None]
    when the store raises; whether [build_prompt] returns a prompt; the
    reply to it; the clock reading of [write_digest] and whether its
    insertion is executed without an exception. *)
Record Answers := {
  items : option (list Row.t);
  starred : option (list scalar);
  prompt : option string;
  reply : Reply;
  now : Z;
  inserted : bool
}.

(** [profile.get("display_name") or user_id[:8]] *)
Definition name_of (user : User.t) : scalar :=
  let display_name :=
    match User.profile user with
    | Some p => Profile.display_name p
    | None => SNone
    end in
  if truthy_scalar display_name then display_name
  else SStr (PyStr.slice_to 8 (User.user_id user)).

Section WithRepr.
Variable repr : pyval -> string.

(** The body of [for user in users]: its trace, and [false] when an
    exception leaves it. *)
Definition process (user : User.t) (a : Answers) : list Event * bool :=
  let user_id := User.user_id user in
  let name := name_of user in
  let log := [Log INFO (Processing name)] in
  match items a with
  | None => (log, false)
  | Some [] => (log ++ [Log INFO (NoRecentItems name)], true)
  | Some (item :: rest) =>
      let items := item :: rest in
      let log := log ++ [Log INFO (ArticlesToSummarise (length items))] in
      match starred a with
      | None => (log, false)
      | Some starred =>
          let log := log ++ [Log INFO (StarredArticles (length starred))] in
          match prompt a with
          | None => (log, false)
          | Some _ =>
              let '(ev, result) := call_claude (reply a) in
              let log := log ++ ev in
              if negb (truthy result)
              then (log ++ [Log WARNING (FailedToGetDigest name)], true)
              else
                match result with
                | VDict d =>
                    match write_digest repr (now a) user_id items d with
                    | None => (log, false)
                    | Some ev =>
                        let log := log ++ (InWriteDigest <$> ev) in
                        if inserted a
                        then (log ++ [Log INFO (DigestWritten name)], true)
                        else (log, false)
                    end
                | _ => (log, false)
                end
          end
      end
  end.

Fixpoint process_users (answers : string -> Answers) (users : list User.t)
    : list Event * bool :=
  match users with
  | [] => ([], true)
  | user :: rest =>
      let '(ev, went_on) := process user (answers (User.user_id user)) in
      if went_on
      then let '(ev', returned) := process_users answers rest in
           (ev ++ ev', returned)
      else (ev, false)
  end.

(** What one run receives: the rows the two queries of [fetch_users]
    answer, and the answers to the calls made for each user. *)
Record Run := {
  feed_rows : list FeedRow.t;
  profiles : list Profile.t;
  answers : string -> Answers
}.

(** [main()]: its trace, and [false] when an exception ends it. *)
Definition main (r : Run) : list Event * bool :=
  let users := fetch_users (feed_rows r) (profiles r) in
  let log := [Log INFO (GeneratingDigest (length users))] in
  let '(ev, returned) := process_users (answers r) users in
  if returned then (log ++ ev ++ [Log INFO Done], true)
  else (log ++ ev, false).

End WithRepr.

(** *** Notions used to state the properties of the run *)

(** The names of the [Processing] records of a trace, in order. *)
Definition processed (tr : list Event) : list scalar :=
  omap (fun ev => match ev with
                  | Log INFO (Processing name) => Some name
                  | _ => None
                  end) tr.

(** The rows handed to the [digests] table, in order. *)
Definition digests (tr : list Event) : list DigestRow.t :=
  omap (fun ev => match ev with
                  | InWriteDigest (InsertDigest row) => Some row
                  | _ => None
                  end) tr.

(** The value [call_claude] returns. *)
Definition result_of (a : Answers) : pyval := snd (call_claude (reply a)).

(** A call made for the user raises an exception that [main] does not
    catch. *)
Definition raises (a : Answers) : bool :=
  match items a with
  | None => true
  | Some [] => false
  | Some (_ :: _) =>
      match starred a, prompt a with
      | Some _, Some _ =>
          truthy (result_of a)
          && match result_of a with
             | VDict _ => negb (inserted a)
             | _ => true
             end
      | _, _ => true
      end
  end.

(** The user has recent items and [call_claude] returned a value that
    is not falsy. *)
Definition digest_due (a : Answers) : bool :=
  match items a with
  | Some (_ :: _) => truthy (result_of a)
  | _ => false
  end.

End DigestMain.

(** ** Concrete runs of digest.py *)

Module DigestSamples.
Import Digest Users DigestMain Samples.

Definition ann : User.t := {| User.user_id := "u1"; User.profile := None |}.

(** The answers for a user with the item 7, nothing starred and the
    reply [rep]. *)
Definition answers_of (rep : Reply) (ok : bool) : Answers :=
  {| items := Some [row_of 7]; starred := Some []; prompt := Some "p"%string;
     reply := rep; now := 0; inserted := ok |}.

(** One user with two active feeds and no profile. *)
Definition run_of_reply (rep : Reply) (ok : bool) : Run :=
  {| feed_rows := [{| FeedRow.user_id := "u1" |}; {| FeedRow.user_id := "u1" |}];
     profiles := [];
     answers := fun _ => answers_of rep ok |}.

(** A reply that picks the first article. *)
Definition first_pick : pyval :=
  VDict {[ "overview"%string := VScalar (SStr "Quiet day");
           "picks"%string :=
             VList [VDict {[ "index"%string := VScalar (SInt 1) ]}] ]}.

End DigestSamples.

(** ** Notions used to state further properties of digest.py *)

Module DigestNotions.
Import Digest.

Fixpoint no_control (s : string) : bool :=
  match s with
  | EmptyString => true
  | String c r => negb (DigestText.is_control c) && no_control r
  end.

Definition is_dict (v : pyval) : bool :=
  match v with VDict _ => true | _ => false end.

(** The integer a pick gives as its index, if it gives one. *)
Definition index_of (d : gmap string pyval) : option Z :=
  match d !! "index"%string with
  | Some v => PyVal.as_int v
  | None => None
  end.

(** The index of the pick is an integer of [1 .. n]. *)
Definition in_range (n : nat) (d : gmap string pyval) : bool :=
  match index_of d with
  | Some i => (1 <=? i) && (i <=? Z.of_nat n)
  | None => false
  end.

Section WithRepr.
Variable repr : pyval -> string.

(** The warning logged for a pick, if any. *)
Definition warning (items : list Row.t) (pick : pyval) : option Event :=
  match visit_pick repr items pick with
  | InvalidIndex v => Some (SkippingPick v)
  | _ => None
  end.

End WithRepr.

End DigestNotions.

(** ** Notions used to state further properties of fetcher.py *)

Module FetcherNotions.
Import Fetcher.

(** What the first pass keeps of a candidate: a canonical url that is not
    empty, the parsed date under [_published_dt], and a date, when there
    is one, that is not before the cutoff. *)
Definition candidate_ok (cutoff : Z) (c : Entry.t * Feed.t) : Prop :=
  entry_url (fst c) <> ""%string
  /\ Entry._published_dt (fst c) = parse_published (fst c)
  /\ forall p, Entry._published_dt (fst c) = Some p -> cutoff <= p.

(** The tier weight in the words of the specification: 40 when the tier
    is 1, 20 when it is 2 or any other value, and when it is missing. *)
Definition spec_tier_weight (feed : Feed.t) : Z :=
  match Feed.tier feed with
  | Some (SInt 1) => 40
  | _ => 20
  end.

(** The entries of a feed that the first pass looks at. *)
Definition considered (feed : Feed.t) (entries : list Entry.t) : list Entry.t :=
  slice_to (default (Some 10) (Feed.max_items feed)) entries.

(** The chunks handed to the store, in order. *)
Definition inserted_chunks (tr : list Event) : list (list Item.t) :=
  omap (fun c => match c with InsertItems chunk => Some chunk | _ => None end)
       (calls tr).

(** The items of the chunks, from the call number [k] on, whose insertion
    the store accepted. *)
Fixpoint accepted (ans : nat -> option string) (k : nat) (cs : list (list Item.t))
    : nat :=
  match cs with
  | [] => 0
  | chunk :: rest =>
      match ans k with
      | None => length chunk + accepted ans (S k) rest
      | Some _ => accepted ans (S k) rest
      end
  end.

End FetcherNotions.

(** ** Notions used to state properties of the texts *)

Module TextNotions.

(** Every white-space character of [s] is a space that follows a
    character that is not white space; [prev] tells whether the character
    left of [s] is white space. *)
Fixpoint tidy_from (prev : bool) (s : string) : bool :=
  match s with
  | EmptyString => true
  | String c r =>
      if PyStr.isspace c
      then Ascii.eqb c " "%char && negb prev && tidy_from true r
      else tidy_from false r
  end.

(** No white space at the start, and single spaces only after it. *)
Definition tidy (s : string) : bool := tidy_from true s.

Definition is_lt (c : ascii) : bool := Ascii.eqb c "<"%char.
Definition is_gt (c : ascii) : bool := Ascii.eqb c ">"%char.

Fixpoint no_gt (s : string) : bool :=
  match s with
  | EmptyString => true
  | String c r => negb (is_gt c) && no_gt r
  end.

Definition starts_with_gt (s : string) : bool :=
  match s with
  | String c _ => is_gt c
  | EmptyString => false
  end.

(** No [<] of [s] opens a tag: it stands right before a [>], or no [>]
    comes after it. *)
Fixpoint tagless (s : string) : bool :=
  match s with
  | EmptyString => true
  | String c r =>
      (if is_lt c then starts_with_gt r || no_gt r else true) && tagless r
  end.

End TextNotions.

(** * Properties *)

(** ** Python strings, on examples *)

Example strip_example : PyStr.strip "  http://a.example/x 	" = "http://a.example/x".
Proof. reflexivity. Qed.

Example search_words_example :
  PyStr.search_words ["breaking"; "urgent"] "BREAKING: market drops" = true
  /\ PyStr.search_words ["breaking"; "urgent"] "heartbreaking news" = false
  /\ PyStr.search_words ["flash"] "a flash_sale" = false.
Proof. repeat split; reflexivity. Qed.

Example sub_tags_example :
  PyStr.sub_tags "<p>a <b>b</b> <> c < d" = " a  b  <> c < d".
Proof. reflexivity. Qed.

Example sub_spaces_example : PyStr.sub_spaces " a 	 b" = " a b".
Proof. reflexivity. Qed.

Example of_struct_time_example :
  DateTime.of_struct_time
    {| DateTime.tm_year := 1970; DateTime.tm_mon := 1; DateTime.tm_mday := 2;
       DateTime.tm_hour := 0; DateTime.tm_min := 0; DateTime.tm_sec := 1 |}
  = Some 86401000000
  /\ DateTime.of_struct_time
    {| DateTime.tm_year := 2023; DateTime.tm_mon := 2; DateTime.tm_mday := 29;
       DateTime.tm_hour := 0; DateTime.tm_min := 0; DateTime.tm_sec := 0 |}
  = None.
Proof. split; reflexivity. Qed.

(** ** Properties of fetcher.py *)

Module FetcherProofs.
Import Fetcher Samples.

(** *** The score *)

Lemma round2_comp (x y : Q) : (x == y)%Q -> round2 x = round2 y.
Proof.
  intros H. unfold round2.
  assert (Hy : (x * 100 == y * 100)%Q) by (rewrite H; reflexivity).
  rewrite (Qfloor_comp _ _ Hy).
  assert (Hc : ((x * 100 - inject_Z (Qfloor (y * 100)) ?= 1 # 2)
               = (y * 100 - inject_Z (Qfloor (y * 100)) ?= 1 # 2))%Q).
  { apply Qcompare_comp; [rewrite Hy; reflexivity | reflexivity]. }
  rewrite Hc. reflexivity.
Qed.

Lemma score_item_sum now item feed cnt :
  score_item now item feed cnt
  = round2 (inject_Z (tier_weight feed) + other_signals now item cnt).
Proof.
  unfold score_item, other_signals, recency, bump.
  apply round2_comp.
  destruct (Entry._published_dt item), (multi_source item cnt),
    (has_metadata_tag item), (has_breaking_title item), (has_noise item);
    ring.
Qed.

Lemma decay_closed now p :
  (decay now p == Qmax 0 ((D30 - (now - p)) # 2592000000000))%Q.
Proof.
  unfold decay, DateTime.total_seconds, DateTime.us_per_second, MAX_AGE_DAYS, D30.
  apply Q.max_compat; [reflexivity|].
  rewrite (Qmake_Qdiv (2592000000000 - (now - p)) 2592000000000).
  generalize (now - p); intros d.
  replace (2592000000000 - d) with (2592000000000 + - d) by lia.
  rewrite inject_Z_plus, inject_Z_opp.
  generalize (inject_Z d); intros x.
  change (inject_Z 1000000) with 1000000%Q.
  change (inject_Z 30) with 30%Q.
  change (inject_Z 2592000000000) with 2592000000000%Q.
  field.
Qed.

Lemma recency_closed now p :
  (recency now (Some p) == Qmax 0 ((D30 - (now - p)) # 2592000000000) * 50)%Q.
Proof. unfold recency, TIME_DECAY_MAX. rewrite decay_closed. reflexivity. Qed.

Lemma recency_formula now p :
  (recency now (Some p) == Qmax 0 (1 - age_days now p / 30) * 50)%Q.
Proof. reflexivity. Qed.

Lemma recency_nonneg now pub : (0 <= recency now pub)%Q.
Proof.
  destruct pub as [p|]; [|apply Qle_refl].
  unfold recency. apply Qmult_le_0_compat; [apply Q.le_max_l | discriminate].
Qed.

Lemma recency_antitone now1 p1 now2 p2 :
  now1 - p1 <= now2 - p2 ->
  (recency now2 (Some p2) <= recency now1 (Some p1))%Q.
Proof.
  intros H. rewrite !recency_closed.
  apply Qmult_le_compat_r; [|discriminate].
  apply Q.max_le_compat_l.
  unfold Qle, D30; simpl. lia.
Qed.

Lemma recency_le_max now p :
  p <= now -> (recency now (Some p) <= inject_Z TIME_DECAY_MAX)%Q.
Proof.
  intros H. rewrite recency_closed.
  apply Qle_trans with (1 * 50)%Q; [|discriminate].
  apply Qmult_le_compat_r; [|discriminate].
  apply Q.max_lub; [discriminate|].
  unfold Qle, D30; simpl. lia.
Qed.

Lemma recency_expired now p :
  DateTime.days MAX_AGE_DAYS <= now - p -> (recency now (Some p) == 0)%Q.
Proof.
  intros H. rewrite recency_closed.
  rewrite Q.max_l; [reflexivity|].
  unfold DateTime.days, DateTime.us_per_day, DateTime.us_per_second, MAX_AGE_DAYS in H.
  unfold Qle, D30; simpl. lia.
Qed.

(** *** The first pass *)

Lemma entry_url_set_published_dt d e :
  entry_url (Entry.set_published_dt d e) = entry_url e.
Proof. reflexivity. Qed.

Lemma occurrences_snoc u cands c :
  occurrences u (cands ++ [c])
  = (occurrences u cands + if decide (cand_url c = u) then 1 else 0)%nat.
Proof.
  unfold occurrences. rewrite filter_app, length_app. f_equal.
  rewrite filter_cons, filter_nil. by case_decide.
Qed.

Lemma scan_entry_counts cutoff feed st entry :
  counts_candidates st -> counts_candidates (scan_entry cutoff feed st entry).
Proof.
  intros Hst. unfold scan_entry.
  destruct (PyStr.is_empty (entry_url entry)); [done|].
  destruct (match parse_published entry with
            | Some p => p <? cutoff | None => false end); [done|].
  intros u. cbn [url_feed_count all_candidates].
  rewrite occurrences_snoc. unfold cand_url; cbn [fst].
  rewrite !entry_url_set_published_dt.
  pose proof (Hst u) as Hu. pose proof (Hst (entry_url entry)) as He.
  destruct (decide (entry_url entry = u)) as [->|Hne].
  - rewrite lookup_insert_eq, Hu.
    repeat case_decide; try lia; cbn; f_equal; lia.
  - rewrite lookup_insert_ne by done. rewrite Hu.
    destruct (decide (entry_url entry = u)); [done|].
    by rewrite Nat.add_0_r.
Qed.

Lemma foldl_scan_entry_counts cutoff feed entries st :
  counts_candidates st -> counts_candidates (foldl (scan_entry cutoff feed) st entries).
Proof.
  revert st. induction entries as [|e es IH]; intros st Hst; [done|].
  cbn. apply IH. by apply scan_entry_counts.
Qed.

Lemma scan_feed_counts cutoff acc src :
  counts_candidates (fst acc) -> counts_candidates (fst (scan_feed cutoff acc src)).
Proof.
  destruct acc as [st log], src as [feed [entries|e]]; cbn; [|done].
  apply foldl_scan_entry_counts.
Qed.

Lemma first_pass_counts cutoff feeds : counts_candidates (fst (first_pass cutoff feeds)).
Proof.
  unfold first_pass.
  assert (H0 : counts_candidates
                 (fst ({| url_feed_count := ∅; all_candidates := [] |}, @nil Event))).
  { intros u. cbn. by rewrite lookup_empty. }
  revert H0. generalize ({| url_feed_count := ∅; all_candidates := [] |}, @nil Event).
  induction feeds as [|src rest IH]; intros acc Hacc; [done|].
  cbn [foldl]. apply IH. by apply scan_feed_counts.
Qed.


Lemma filter_none {A} (P : A -> Prop) `{!forall x, Decision (P x)} (l : list A) :
  (forall x, x ∈ l -> ~ P x) -> filter P l = [].
Proof.
  induction l as [|x l IH]; intros Hall; [done|].
  rewrite filter_cons, decide_False by (apply Hall; by left).
  apply IH. intros y Hy. apply Hall. by right.
Qed.

(** *** The second pass *)

Section SecondPass.
Variables (E : gset string) (clk : nat -> Z) (cnt : gmap string Z).

Lemma new_item_url now e f : Item.url (new_item now cnt e f) = entry_url e.
Proof. reflexivity. Qed.

Lemma second_pass_elem seen k cs it :
  it ∈ second_pass E clk cnt seen k cs ->
  (Item.url it ∉ E) /\ (Item.url it ∉ seen) /\
  exists c, c ∈ cs /\ cand_url c = Item.url it.
Proof.
  revert seen k. induction cs as [|[e f] cs IH]; intros seen k; cbn.
  - intros H. by apply elem_of_nil in H.
  - destruct (bool_decide (entry_url e ∈ E)) eqn:HE; cbn.
    { intros H. destruct (IH _ _ H) as (? & ? & c & ? & ?).
      repeat split; try done. exists c. split; [by right|done]. }
    destruct (bool_decide (entry_url e ∈ seen)) eqn:Hs; cbn.
    { intros H. destruct (IH _ _ H) as (? & ? & c & ? & ?).
      repeat split; try done. exists c. split; [by right|done]. }
    apply bool_decide_eq_false in HE, Hs.
    intros [->|H]%elem_of_cons.
    + rewrite new_item_url. repeat split; try done.
      exists (e, f). split; [by left|done].
    + destruct (IH _ _ H) as (? & Hn & c & ? & ?).
      repeat split; [done|set_solver|].
      exists c. split; [by right|done].
Qed.

Lemma second_pass_NoDup seen k cs :
  NoDup (Item.url <$> second_pass E clk cnt seen k cs).
Proof.
  revert seen k. induction cs as [|[e f] cs IH]; intros seen k; cbn.
  - constructor.
  - destruct (bool_decide (entry_url e ∈ E) || bool_decide (entry_url e ∈ seen));
      [apply IH|].
    cbn. constructor; [|apply IH].
    intros (it & Hu & Hit)%list_elem_of_fmap.
    apply second_pass_elem in Hit as (_ & Hn & _).
    rewrite <- Hu in Hn. set_solver.
Qed.

Lemma second_pass_app seen k pre post :
  second_pass E clk cnt seen k (pre ++ post)
  = second_pass E clk cnt seen k pre
    ++ second_pass E clk cnt
         (list_to_set (Item.url <$> second_pass E clk cnt seen k pre) ∪ seen)
         (k + length (second_pass E clk cnt seen k pre)) post.
Proof.
  revert seen k. induction pre as [|[e f] pre IH]; intros seen k; cbn.
  - rewrite Nat.add_0_r. f_equal. set_solver.
  - destruct (bool_decide (entry_url e ∈ E) || bool_decide (entry_url e ∈ seen));
      [apply IH|].
    cbn. f_equal. rewrite IH. f_equal.
    rewrite Nat.add_succ_r. cbn. f_equal. set_solver.
Qed.

(** Nothing that carries [u] is emitted from candidates that do not. *)
Lemma second_pass_filter_absent u seen k cs :
  u ∉ (cand_url <$> cs) ->
  filter (fun it => Item.url it = u) (second_pass E clk cnt seen k cs) = [].
Proof.
  intros Hu. apply filter_none. intros it Hit Heq.
  apply second_pass_elem in Hit as (_ & _ & c & Hc & Hcu).
  apply Hu. apply list_elem_of_fmap. exists c. split; [congruence|done].
Qed.

Lemma second_pass_filter_seen u seen k cs :
  u ∈ seen ->
  filter (fun it => Item.url it = u) (second_pass E clk cnt seen k cs) = [].
Proof.
  intros Hu. apply filter_none. intros it Hit Heq.
  apply second_pass_elem in Hit as (_ & Hn & _). congruence.
Qed.

Lemma second_pass_filter_existing u seen k cs :
  u ∈ E ->
  filter (fun it => Item.url it = u) (second_pass E clk cnt seen k cs) = [].
Proof.
  intros Hu. apply filter_none. intros it Hit Heq.
  apply second_pass_elem in Hit as (Hn & _). congruence.
Qed.

Lemma second_pass_first_occurrence pre e f post :
  entry_url e ∉ (cand_url <$> pre) ->
  filter (fun it => Item.url it = entry_url e)
         (second_pass E clk cnt ∅ 0 (pre ++ (e, f) :: post))
  = if decide (entry_url e ∈ E) then []
    else [new_item (clk (length (second_pass E clk cnt ∅ 0 pre))) cnt e f].
Proof.
  intros Hpre. case_decide as HE.
  { by apply second_pass_filter_existing. }
  rewrite second_pass_app, filter_app.
  rewrite (second_pass_filter_absent _ _ _ _ Hpre). cbn [app second_pass].
  set (A := second_pass E clk cnt ∅ 0 pre).
  assert (Hseen : entry_url e ∉ (list_to_set (Item.url <$> A) ∪ ∅ : gset string)).
  { intros [Hin|Hin]%elem_of_union; [|set_solver].
    apply elem_of_list_to_set, list_elem_of_fmap in Hin as (it & Hu & Hit).
    apply second_pass_elem in Hit as (_ & _ & c & Hc & Hcu).
    apply Hpre, list_elem_of_fmap. exists c. split; [congruence|done]. }
  rewrite (bool_decide_eq_false_2 _ HE), (bool_decide_eq_false_2 _ Hseen).
  cbn [orb]. rewrite Nat.add_0_l.
  rewrite filter_cons, decide_True by done.
  rewrite second_pass_filter_seen by set_solver. done.
Qed.

Lemma second_pass_prefix seen k cs more :
  second_pass E clk cnt seen k cs `prefix_of` second_pass E clk cnt seen k (cs ++ more).
Proof. rewrite second_pass_app. by eexists. Qed.
End SecondPass.

(** *** Persistence *)

Lemma calls_app a b : calls (a ++ b) = calls a ++ calls b.
Proof. apply omap_app. Qed.

Lemma scan_feed_log_calls cutoff acc src :
  calls (snd acc) = [] -> calls (snd (scan_feed cutoff acc src)) = [].
Proof.
  destruct acc as [st log], src as [feed [entries|e]]; cbn [snd scan_feed]; intros H.
  - by rewrite calls_app, H.
  - by rewrite !calls_app, H.
Qed.

Lemma first_pass_log_calls cutoff feeds : calls (snd (first_pass cutoff feeds)) = [].
Proof.
  unfold first_pass.
  assert (H0 : calls (snd ({| url_feed_count := ∅; all_candidates := [] |},
                           @nil Event)) = []) by done.
  revert H0. generalize ({| url_feed_count := ∅; all_candidates := [] |}, @nil Event).
  induction feeds as [|src rest IH]; intros acc Hacc; [done|].
  cbn [foldl]. apply IH. by apply scan_feed_log_calls.
Qed.

Lemma insert_chunks_calls ans total k inserted cs :
  calls (fst (insert_chunks ans total k inserted cs)) = InsertItems <$> cs.
Proof.
  revert k inserted. induction cs as [|chunk rest IH]; intros k inserted; [done|].
  cbn [insert_chunks]. destruct (ans k).
  - specialize (IH (S k) inserted).
    destruct (insert_chunks ans total (S k) inserted rest) as [ev n].
    cbn in *. by rewrite IH.
  - specialize (IH (S k) (inserted + length chunk)%nat).
    destruct (insert_chunks ans total (S k) (inserted + length chunk) rest) as [ev n].
    cbn in *. by rewrite IH.
Qed.

Lemma insert_chunks_error_logged ans total k inserted cs j chunk e :
  cs !! j = Some chunk -> ans (k + j)%nat = Some e ->
  Log ERROR (InsertError e) ∈ fst (insert_chunks ans total k inserted cs).
Proof.
  revert k inserted j. induction cs as [|c rest IH]; intros k inserted j Hj He; [done|].
  cbn [insert_chunks]. destruct j as [|j].
  - rewrite Nat.add_0_r in He. rewrite He.
    destruct (insert_chunks ans total (S k) inserted rest) as [ev n].
    cbn. right. by left.
  - cbn in Hj. replace (k + S j)%nat with (S k + j)%nat in He by lia.
    destruct (ans k).
    + pose proof (IH (S k) inserted j Hj He) as H.
      destruct (insert_chunks ans total (S k) inserted rest) as [ev n].
      cbn in *. right. by right.
    + pose proof (IH (S k) (inserted + length c)%nat j Hj He) as H.
      destruct (insert_chunks ans total (S k) (inserted + length c) rest) as [ev n].
      cbn in *. right. by right.
Qed.

Lemma cleanup_calls ans k oc : calls (cleanup ans k oc) = sweep_calls ans k oc.
Proof.
  unfold cleanup, sweep_calls. cbn. destruct (ans k); [done|].
  cbn. by destruct (ans (S k)).
Qed.

Lemma persist_calls r :
  calls (persist r (new_items r))
  = insert_calls r ++ sweep_calls (answer r) (length (insert_calls r)) (old_cutoff r).
Proof.
  unfold persist, insert_calls.
  pose proof (insert_chunks_calls (answer r) (length (new_items r)) 0 0
                (chunks 100 (new_items r))) as H.
  destruct (insert_chunks (answer r) (length (new_items r)) 0 0
              (chunks 100 (new_items r))) as [ev n].
  cbn [fst] in H. rewrite !calls_app, H, cleanup_calls, length_fmap. done.
Qed.

Lemma main_trace r :
  feeds r <> [] -> new_items r <> [] ->
  exists log, calls log = [] /\ main r = log ++ persist r (new_items r).
Proof.
  intros Hf Hb. unfold main.
  destruct (feeds r) as [|f fs] eqn:Ef; [done|].
  destruct (new_items r) as [|it its] eqn:Eb; [done|].
  eexists. split; [|reflexivity].
  rewrite !calls_app, first_pass_log_calls. done.
Qed.

Lemma main_calls r :
  calls (main r)
  = match feeds r, new_items r with
    | [], _ | _, [] => []
    | _ :: _, _ :: _ =>
        insert_calls r
        ++ sweep_calls (answer r) (length (insert_calls r)) (old_cutoff r)
    end.
Proof.
  destruct (feeds r) as [|f fs] eqn:Ef.
  { unfold main. by rewrite Ef. }
  destruct (new_items r) as [|it its] eqn:Eb.
  { unfold main. rewrite Ef, Eb, !calls_app, first_pass_log_calls. done. }
  destruct (main_trace r) as (log & Hlog & ->); [by rewrite Ef | by rewrite Eb |].
  rewrite calls_app, Hlog, persist_calls. done.
Qed.

Lemma chunks_subset n (l : list Item.t) chunk it :
  chunk ∈ chunks n l -> it ∈ chunk -> it ∈ l.
Proof.
  unfold chunks. intros (i & -> & _)%list_elem_of_fmap Hit.
  eapply subseteq_drop, subseteq_take, Hit.
Qed.

Lemma chunks_cover_aux {A} (n m : nat) (l : list A) :
  (length l <= m * n)%nat ->
  concat (map (fun i => take n (drop i l)) (map (fun j => j * n)%nat (seq 0 m))) = l.
Proof.
  revert l. induction m as [|m IH]; intros l Hl.
  - destruct l; [done|]. cbn in Hl. lia.
  - cbn [seq map concat]. rewrite Nat.mul_0_l, drop_0.
    rewrite <- seq_shift, !map_map.
    transitivity (take n l ++ drop n l); [|apply take_drop]. f_equal.
    assert (Hd : (length (drop n l) <= m * n)%nat) by (rewrite length_drop; lia).
    rewrite <- (IH (drop n l) Hd) at 1.
    rewrite map_map. f_equal. apply map_ext. intros j.
    rewrite drop_drop. reflexivity.
Qed.

(** The chunks, put end to end, are the batch. *)
Lemma chunks_cover (l : list Item.t) : concat (chunks 100 l) = l.
Proof.
  unfold chunks, range_step. apply chunks_cover_aux.
  pose proof (Nat.div_mod_eq (length l + 100 - 1) 100).
  pose proof (Nat.mod_upper_bound (length l + 100 - 1) 100). lia.
Qed.

(** *** The correlation count *)

Lemma pass1_counts (r : Run) : counts_candidates (pass1 r).
Proof. apply first_pass_counts. Qed.

(** The bonus is given when the link of the entry, as it stands, is a key
    of the index with three candidates or more. *)
Lemma multi_source_occurrences (r : Run) (item : Entry.t) :
  multi_source item (url_feed_count (pass1 r))
  = bool_decide (3 <= occurrences (default ""%string (Entry.link item))
                                  (all_candidates (pass1 r)))%nat.
Proof.
  unfold multi_source. rewrite (pass1_counts r).
  case_decide as H0; cbn.
  - rewrite H0. by rewrite bool_decide_eq_false_2 by lia.
  - case_bool_decide; [apply Z.leb_le | apply Z.leb_gt]; lia.
Qed.

Lemma remove_dups_NoDup_id {A} `{!EqDecision A} (l : list A) :
  NoDup l -> remove_dups l = l.
Proof.
  induction 1 as [|x l Hx _ IH]; [done|].
  cbn. case_decide; [done|]. by rewrite IH.
Qed.

(** Where no feed lists the url twice, the candidates of a url are as
    many as the feeds that present it. *)
Lemma occurrences_distinct_feeds u cands :
  NoDup (Feed.id ∘ snd <$> filter (fun c => cand_url c = u) cands) ->
  occurrences u cands = spec_distinct_feeds u cands.
Proof.
  intros H. unfold occurrences, spec_distinct_feeds.
  by rewrite (remove_dups_NoDup_id _ H), length_fmap.
Qed.

(** The bonus is the one of the specification for an entry whose link
    has no white space around it, in a run where no feed lists that link
    twice. *)
Lemma bonus_when_feeds_list_once (r : Run) (item : Entry.t) :
  default ""%string (Entry.link item) = entry_url item ->
  NoDup (Feed.id ∘ snd <$> filter (fun c => cand_url c = entry_url item)
                                  (all_candidates (pass1 r))) ->
  multi_source item (url_feed_count (pass1 r))
  = bool_decide (3 <= spec_distinct_feeds (entry_url item)
                                          (all_candidates (pass1 r)))%nat.
Proof.
  intros Hl Hn. rewrite multi_source_occurrences, Hl.
  by rewrite (occurrences_distinct_feeds _ _ Hn).
Qed.

(** C1: the +40 bonus goes to an entry whose url is presented by three
    distinct feeds or more, and to no url presented by fewer.  The code
    counts candidates, not feeds: in the run where one feed lists the link
    [http://x] three times, the url has one presenting feed and the item
    is scored 20 for the tier plus the 40 of the bonus. *)
Theorem repeated_link_gets_bonus :
  spec_distinct_feeds "http://x" (all_candidates (pass1 run_repeated)) = 1%nat
  /\ url_feed_count (pass1 run_repeated) !! "http://x"%string = Some 3
  /\ Item.score <$> new_items run_repeated
     = [round2 (inject_Z 20 + inject_Z MULTI_SOURCE_BUMP)]
  /\ Item.score <$> new_items run_repeated = [6000 # 100].
Proof. repeat split; vm_compute; reflexivity. Qed.

(** The other way round: three feeds present a link written with a
    leading space; the index counts three under the stripped url and
    [score_item] looks the unstripped link up, so no bonus is given. *)
Example padded_link_misses_bonus :
  spec_distinct_feeds "http://x" (all_candidates (pass1 run_padded)) = 3%nat
  /\ url_feed_count (pass1 run_padded) !! "http://x"%string = Some 3
  /\ Item.score <$> new_items run_padded = [2000 # 100].
Proof. repeat split; vm_compute; reflexivity. Qed.

(** *** Persistence *)

Lemma cleanup_error_logged ans k oc e :
  ans k = Some e \/ (ans k = None /\ ans (S k) = Some e) ->
  Log WARNING (CleanupError e) ∈ cleanup ans k oc.
Proof.
  unfold cleanup. intros [H|[H1 H2]].
  - rewrite H. right. by left.
  - rewrite H1, H2. right. right. by left.
Qed.

Lemma persist_insert_error_logged r j chunk e :
  chunks 100 (new_items r) !! j = Some chunk -> answer r j = Some e ->
  Log ERROR (InsertError e) ∈ persist r (new_items r).
Proof.
  intros Hj He. unfold persist.
  pose proof (insert_chunks_error_logged (answer r) (length (new_items r)) 0 0
                (chunks 100 (new_items r)) j chunk e Hj He) as H.
  destruct (insert_chunks (answer r) (length (new_items r)) 0 0
              (chunks 100 (new_items r))) as [ev n].
  cbn [fst] in H. apply elem_of_app. by left.
Qed.

Lemma persist_cleanup_error_logged r e :
  let n := length (insert_calls r) in
  answer r n = Some e \/ (answer r n = None /\ answer r (S n) = Some e) ->
  Log WARNING (CleanupError e) ∈ persist r (new_items r).
Proof.
  intros n H. unfold persist.
  destruct (insert_chunks (answer r) (length (new_items r)) 0 0
              (chunks 100 (new_items r))) as [ev m].
  apply elem_of_app. right. apply elem_of_app. right.
  apply cleanup_error_logged. unfold n, insert_calls in H.
  by rewrite length_fmap in H.
Qed.

(** C2, as the code has it: in a run that has a batch to persist, every
    chunk is handed to the store whatever the store answered before, and
    the deletion by publish date follows; the deletion of undated items is
    attempted when and only when the first deletion did not fail; every
    failure is logged. *)
Theorem persistence_failures_logged (r : Run) :
  feeds r <> [] -> new_items r <> [] ->
  let n := length (insert_calls r) in
  calls (main r)
  = insert_calls r
    ++ DeletePublishedBefore (old_cutoff r)
    :: match answer r n with
       | None => [DeleteUndatedFetchedBefore (old_cutoff r)]
       | Some _ => []
       end
  /\ (forall j chunk e,
        chunks 100 (new_items r) !! j = Some chunk -> answer r j = Some e ->
        Log ERROR (InsertError e) ∈ main r)
  /\ (forall e, answer r n = Some e -> Log WARNING (CleanupError e) ∈ main r)
  /\ (forall e, answer r n = None -> answer r (S n) = Some e ->
                Log WARNING (CleanupError e) ∈ main r).
Proof.
  intros Hf Hb n.
  destruct (main_trace r Hf Hb) as (log & Hlog & Hmain).
  repeat split.
  - rewrite main_calls.
    destruct (feeds r); [done|]. destruct (new_items r) eqn:E; [done|]. done.
  - intros j chunk e Hj He. rewrite Hmain. apply elem_of_app. right.
    by eapply persist_insert_error_logged.
  - intros e He. rewrite Hmain. apply elem_of_app. right.
    apply persist_cleanup_error_logged. by left.
  - intros e H1 H2. rewrite Hmain. apply elem_of_app. right.
    apply persist_cleanup_error_logged. by right.
Qed.

Lemma persistence_failures_logged_witness :
  feeds run_sweep_fails <> [] /\ new_items run_sweep_fails <> []
  /\ Log WARNING (CleanupError "timeout") ∈ main run_sweep_fails.
Proof.
  assert (Hf : feeds run_sweep_fails <> []) by discriminate.
  assert (Hb : new_items run_sweep_fails <> []) by (vm_compute; discriminate).
  split; [exact Hf|]. split; [exact Hb|].
  destruct (persistence_failures_logged run_sweep_fails Hf Hb) as (_ & _ & H & _).
  apply H. vm_compute. reflexivity.
Defined.

(** C2 as it is stated fails: when the first deletion of the sweep
    raises, and nothing else does, the second deletion is not attempted. *)
Lemma sweep_failure_skips_second_delete :
  feeds run_sweep_fails <> [] /\ new_items run_sweep_fails <> []
  /\ ~ spec_failure_blocks_nothing run_sweep_fails.
Proof.
  split; [discriminate|]. split; [vm_compute; discriminate|].
  intros H.
  destruct (H 1%nat "timeout"%string) as (_ & _ & Hd).
  - reflexivity.
  - intros j Hj. cbn. destruct j as [|[|j]]; [done|done|done].
  - rewrite main_calls in Hd. vm_compute in Hd.
    apply elem_of_cons in Hd as [Hd|Hd]; [discriminate|].
    apply elem_of_cons in Hd as [Hd|Hd]; [discriminate|].
    by apply elem_of_nil in Hd.
Qed.

(** *** The recency signal *)

Lemma recency_absent now : recency now None = 0%Q.
Proof. reflexivity. Qed.

Lemma recency_at_30_days p :
  (recency (p + DateTime.days MAX_AGE_DAYS) (Some p) == 0)%Q.
Proof. apply recency_expired. lia. Qed.

(** C3: the recency contribution is [max(0, 1 - age_days/30) * 50], it
    does not increase with the age, it is 0 at thirty days and for an
    entry without a date, and it lies between 0 and 50.  The upper bound
    fails: the decay has no cap at 1, so that an entry dated three days
    after the clock reading contributes 55, and the run that receives
    one scores it 20 + 55. *)
Theorem future_entry_exceeds_decay_max :
  (forall now, (recency now (Some (now + DateTime.days 3)%Z) == 55)%Q)
  /\ ~ (recency 0 (Some (DateTime.days 3)) <= inject_Z TIME_DECAY_MAX)%Q
  /\ Item.published_at <$> new_items run_future = [Some (DateTime.days 3)]
  /\ Item.score <$> new_items run_future = [7500 # 100].
Proof.
  split; [|split; [|split]].
  - intros now. rewrite recency_closed.
    replace (D30 - (now - (now + DateTime.days 3))) with 2851200000000
      by (unfold D30, DateTime.days, DateTime.us_per_day, DateTime.us_per_second; lia).
    reflexivity.
  - vm_compute. intros H. by apply H.
  - vm_compute. reflexivity.
  - vm_compute. reflexivity.
Qed.

(** What does hold of the recency contribution. *)
Lemma recency_properties :
  (forall now p, (recency now (Some p) == Qmax 0 (1 - age_days now p / 30) * 50)%Q)
  /\ (forall now1 p1 now2 p2,
        now1 - p1 <= now2 - p2 ->
        (recency now2 (Some p2) <= recency now1 (Some p1))%Q)
  /\ (forall now pub, (0 <= recency now pub)%Q)
  /\ (forall now p, p <= now -> (recency now (Some p) <= 50)%Q)
  /\ (forall p, (recency (p + DateTime.days 30) (Some p) == 0)%Q)
  /\ (forall now, recency now None = 0%Q).
Proof.
  repeat split.
  - apply recency_antitone.
  - apply recency_nonneg.
  - apply recency_le_max.
  - apply recency_at_30_days.
Qed.

(** *** The tier weight *)

Lemma TIER_WEIGHTS_lookup (z : Z) :
  TIER_WEIGHTS !! z = if decide (z = 1) then Some 40
                      else if decide (z = 2) then Some 20 else None.
Proof.
  unfold TIER_WEIGHTS. rewrite lookup_insert.
  destruct (decide (1 = z)) as [<-|H1]; [done|].
  rewrite decide_False by congruence.
  destruct (decide (z = 2)) as [->|H2]; [done|].
  apply lookup_singleton_ne. congruence.
Qed.

(** C7, amended: the tier adds 40 when the tier of the feed is the
    integer 1 or a value that Python equates with it as a key of
    [TIER_WEIGHTS], the boolean [True] and the float 1.0; it adds 20 for
    every other value, 2 and [None] among them, and for a feed without
    tier. *)
Theorem tier_weight_spec (feed : Feed.t) :
  tier_weight feed
  = match Feed.tier feed with
    | Some (SInt z) => if decide (z = 1) then 40 else 20
    | Some (SBool b) => if b then 40 else 20
    | Some (SFloat q) => if Qeq_bool q 1 then 40 else 20
    | Some SNone | Some (SStr _) | None => 20
    end
  /\ forall now item cnt,
       score_item now item feed cnt
       = round2 (inject_Z (tier_weight feed) + other_signals now item cnt).
Proof.
  split; [|intros; apply score_item_sum].
  unfold tier_weight, PyVal.int_dict_get.
  destruct (Feed.tier feed) as [[|b|z|q|s]|]; cbn [from_option id PyVal.key_int];
    try done.
  - by destruct b.
  - rewrite TIER_WEIGHTS_lookup.
    destruct (decide (z = 1)); [done|]. by destruct (decide (z = 2)).
  - destruct (Qeq_bool q 1) eqn:H1.
    + apply Qeq_bool_iff in H1.
      assert (Hf : Qfloor q = 1) by (by rewrite (Qfloor_comp _ _ H1)).
      rewrite Hf.
      replace (Qeq_bool q (inject_Z 1)) with true; [done|].
      symmetry. by apply Qeq_bool_iff.
    + destruct (Qeq_bool q (inject_Z (Qfloor q))) eqn:Hq; [|done].
      rewrite TIER_WEIGHTS_lookup.
      destruct (decide (Qfloor q = 1)) as [Hf|Hf].
      * rewrite Hf in Hq. change (inject_Z 1) with 1%Q in Hq. congruence.
      * by destruct (decide (Qfloor q = 2)).
Qed.

Lemma tier_weight_spec_witness :
  tier_weight (feed_of 1 1) = 40 /\ tier_weight (feed_of 1 2) = 20
  /\ tier_weight (feed_of 1 7) = 20.
Proof.
  rewrite (proj1 (tier_weight_spec (feed_of 1 1))).
  rewrite (proj1 (tier_weight_spec (feed_of 1 2))).
  rewrite (proj1 (tier_weight_spec (feed_of 1 7))).
  repeat split; reflexivity.
Defined.

(** C7 as it is stated fails: the boolean [True] and the float 1.0 are
    values other than the integer 1, and the tier adds 40 for them. *)
Lemma true_and_float_tier_weigh_40 :
  let feed t := {| Feed.id := SInt 1; Feed.name := "Wire"; Feed.url := "u";
                   Feed.tier := Some t; Feed.max_items := None;
                   Feed.category := None |} in
  (tier_weight (feed (SBool true)) = 40
   /\ FetcherNotions.spec_tier_weight (feed (SBool true)) = 20)
  /\ (tier_weight (feed (SFloat 1)) = 40
      /\ FetcherNotions.spec_tier_weight (feed (SFloat 1)) = 20)
  /\ ~ (forall f, tier_weight f = FetcherNotions.spec_tier_weight f).
Proof.
  intros feed. split; [by vm_compute|]. split; [by vm_compute|].
  intros H. specialize (H (feed (SBool true))). vm_compute in H. discriminate.
Qed.

Example tier_weight_examples :
  let feed t := {| Feed.id := SInt 1; Feed.name := "Wire"; Feed.url := "u";
                   Feed.tier := t; Feed.max_items := None; Feed.category := None |} in
  tier_weight (feed (Some (SInt 1))) = 40
  /\ tier_weight (feed (Some (SInt 2))) = 20
  /\ tier_weight (feed (Some (SInt 3))) = 20
  /\ tier_weight (feed (Some (SInt 0))) = 20
  /\ tier_weight (feed None) = 20
  /\ tier_weight (feed (Some SNone)) = 20
  /\ tier_weight (feed (Some (SStr "1"))) = 20
  /\ tier_weight (feed (Some (SBool true))) = 40
  /\ tier_weight (feed (Some (SFloat 1))) = 40
  /\ tier_weight (feed (Some (SFloat (3 # 2)))) = 20.
Proof. repeat split; vm_compute; reflexivity. Qed.

(** *** Determinism of the score *)

(** C9: with the clock reading fixed, equal inputs give the same score,
    and the score is a number of hundredths.  Of the feed the score reads
    the tier only, and of the counts the one of the link of the entry. *)
Theorem score_item_deterministic
    (now1 now2 : Z) (item1 item2 : Entry.t) (feed1 feed2 : Feed.t)
    (cnt1 cnt2 : gmap string Z) :
  now1 = now2 -> item1 = item2 ->
  Feed.tier feed1 = Feed.tier feed2 ->
  cnt1 !! default ""%string (Entry.link item1)
  = cnt2 !! default ""%string (Entry.link item2) ->
  score_item now1 item1 feed1 cnt1 = score_item now2 item2 feed2 cnt2
  /\ exists n : Z, score_item now1 item1 feed1 cnt1 = n # 100.
Proof.
  intros -> -> Ht Hc. split; [|by eexists].
  unfold score_item, tier_weight, multi_source. by rewrite Ht, Hc.
Qed.

Lemma score_item_deterministic_witness :
  score_item 0 (entry_at "http://x" None) (feed_of 1 1) ∅
  = score_item 0 (entry_at "http://x" None) (feed_of 2 1) {[ "http://y"%string := 5 ]}.
Proof.
  apply (score_item_deterministic 0 0 (entry_at "http://x" None)
           (entry_at "http://x" None) (feed_of 1 1) (feed_of 2 1)
           ∅ {[ "http://y"%string := 5 ]}); reflexivity.
Defined.

(** *** Deduplication *)

(** C4: an entry whose url is among the urls of the store is not in the
    batch of new items, nor in any chunk handed to the store. *)
Theorem persisted_url_never_emitted (r : Run) :
  (forall it, it ∈ new_items r -> Item.url it ∉ existing_urls r)
  /\ (forall e f it,
        (e, f) ∈ all_candidates (pass1 r) -> entry_url e ∈ existing_urls r ->
        it ∈ new_items r -> Item.url it <> entry_url e)
  /\ (forall chunk it,
        InsertItems chunk ∈ calls (main r) -> it ∈ chunk ->
        Item.url it ∉ existing_urls r).
Proof.
  assert (H1 : forall it, it ∈ new_items r -> Item.url it ∉ existing_urls r).
  { intros it Hit. by apply second_pass_elem in Hit as (H & _). }
  split; [exact H1|]. split.
  - intros e f it _ He Hit Heq. apply (H1 it Hit). by rewrite Heq.
  - intros chunk it Hc Hit. apply H1.
    rewrite main_calls in Hc.
    destruct (feeds r); [by apply elem_of_nil in Hc|].
    destruct (new_items r) eqn:E; [by apply elem_of_nil in Hc|].
    rewrite <- E in *.
    apply elem_of_app in Hc as [Hc|Hc].
    + apply list_elem_of_fmap in Hc as (c & [= ->] & Hc).
      by eapply chunks_subset.
    + unfold sweep_calls in Hc.
      apply elem_of_cons in Hc as [Hc|Hc]; [discriminate|].
      destruct (answer r _); [by apply elem_of_nil in Hc|].
      apply elem_of_cons in Hc as [Hc|Hc]; [discriminate|].
      by apply elem_of_nil in Hc.
Qed.

Lemma persisted_url_never_emitted_witness :
  let it := new_item 0 (url_feed_count (pass1 run_two_feeds))
                     (entry_at "http://x" None) (feed_of 1 1) in
  it ∈ new_items run_two_feeds /\ Item.url it ∉ existing_urls run_two_feeds.
Proof.
  intros it.
  assert (Hit : it ∈ new_items run_two_feeds) by (vm_compute; left).
  split; [exact Hit|].
  exact (proj1 (persisted_url_never_emitted run_two_feeds) it Hit).
Defined.

(** C5: of the candidates that share a url only the first, in the order
    of the feeds and then of their entries, is in the batch; the later
    ones are dropped whatever their feed, and what the pass has emitted
    stays as more candidates are read. *)
Theorem first_candidate_wins (r : Run) pre e f post :
  all_candidates (pass1 r) = pre ++ (e, f) :: post ->
  entry_url e ∉ (cand_url <$> pre) ->
  let cnt := url_feed_count (pass1 r) in
  let clk := fun k => clock r (S k) in
  let emit := second_pass (existing_urls r) clk cnt ∅ 0 in
  NoDup (Item.url <$> new_items r)
  /\ filter (fun it => Item.url it = entry_url e) (new_items r)
     = (if decide (entry_url e ∈ existing_urls r) then []
        else [new_item (clk (length (emit pre))) cnt e f])
  /\ (forall cs more, emit cs `prefix_of` emit (cs ++ more)).
Proof.
  intros Hc Hpre cnt clk emit. split; [apply second_pass_NoDup|]. split.
  - unfold new_items. rewrite Hc. by apply second_pass_first_occurrence.
  - intros cs more. apply second_pass_prefix.
Qed.

Lemma first_candidate_wins_witness :
  Item.feed_id <$> filter (fun it => Item.url it = "http://x"%string)
                          (new_items run_two_feeds)
  = [SInt 1].
Proof.
  destruct (first_candidate_wins run_two_feeds []
              (Entry.set_published_dt None (entry_at "http://x" None)) (feed_of 1 1)
              [(Entry.set_published_dt None (entry_at "http://y" None), feed_of 1 1);
               (Entry.set_published_dt None (entry_at "http://x" None), feed_of 2 2)])
    as (_ & H & _).
  - vm_compute. reflexivity.
  - apply not_elem_of_nil.
  - change (entry_url (Entry.set_published_dt None (entry_at "http://x" None)))
      with "http://x"%string in H.
    rewrite H. vm_compute. reflexivity.
Defined.

End FetcherProofs.

(** ** Properties of digest.py *)

Module DigestProofs.
Import Digest Samples.

Section WithRepr.
Variable repr : pyval -> string.

Lemma subscript_in_range {A} (l : list A) (i : Z) :
  0 <= i < Z.of_nat (length l) ->
  exists x, l !! Z.to_nat i = Some x /\ subscript l i = Some x.
Proof.
  intros Hi. unfold subscript.
  destruct (l !! Z.to_nat i) as [x|] eqn:Hx.
  - exists x. split; [done|].
    replace ((0 <=? i) && (i <? Z.of_nat (length l))) with true; [done|].
    symmetry. apply andb_true_iff. split; [apply Z.leb_le | apply Z.ltb_lt]; lia.
  - apply lookup_ge_None in Hx. lia.
Qed.

Lemma visit_pick_int items d v i :
  d !! "index"%string = Some v -> PyVal.as_int v = Some i ->
  visit_pick repr items (VDict d)
  = if (1 <=? i) && (i <=? Z.of_nat (length items))
    then match items !! Z.to_nat (i - 1) with
         | Some row => Appended (resolved repr row d)
         | None => IndexError
         end
    else InvalidIndex v.
Proof.
  intros Hd Hv. unfold visit_pick. rewrite Hd. cbn [from_option id]. rewrite Hv.
  destruct ((1 <=? i) && (i <=? Z.of_nat (length items))) eqn:Hr; [|done].
  apply andb_true_iff in Hr as [H1%Z.leb_le H2%Z.leb_le].
  destruct (subscript_in_range items (i - 1)) as (row & Hrow & ->); [lia|].
  by rewrite Hrow.
Qed.

Lemma visit_pick_accepts items d v i :
  d !! "index"%string = Some v -> PyVal.as_int v = Some i ->
  1 <= i <= Z.of_nat (length items) ->
  exists row, items !! Z.to_nat (i - 1) = Some row
              /\ visit_pick repr items (VDict d) = Appended (resolved repr row d).
Proof.
  intros Hd Hv Hi. rewrite (visit_pick_int _ _ _ _ Hd Hv).
  replace ((1 <=? i) && (i <=? Z.of_nat (length items))) with true.
  2:{ symmetry. apply andb_true_iff. split; apply Z.leb_le; lia. }
  destruct (items !! Z.to_nat (i - 1)) as [row|] eqn:Hrow; [by exists row|].
  apply lookup_ge_None in Hrow. lia.
Qed.

Lemma visit_pick_out_of_range items d v i :
  d !! "index"%string = Some v -> PyVal.as_int v = Some i ->
  i < 1 \/ Z.of_nat (length items) < i ->
  visit_pick repr items (VDict d) = InvalidIndex v.
Proof.
  intros Hd Hv Hi. rewrite (visit_pick_int _ _ _ _ Hd Hv).
  replace ((1 <=? i) && (i <=? Z.of_nat (length items))) with false; [done|].
  symmetry. apply andb_false_iff.
  destruct Hi; [left; apply Z.leb_gt | right; apply Z.leb_gt]; lia.
Qed.

Lemma visit_pick_not_int items d v :
  d !! "index"%string = Some v -> PyVal.as_int v = None ->
  visit_pick repr items (VDict d) = InvalidIndex v.
Proof. intros Hd Hv. unfold visit_pick. rewrite Hd. cbn [from_option id]. by rewrite Hv. Qed.

Lemma visit_pick_missing items d :
  d !! "index"%string = None ->
  visit_pick repr items (VDict d) = InvalidIndex (VScalar SNone).
Proof. intros Hd. unfold visit_pick. by rewrite Hd. Qed.

Lemma visit_pick_no_error items pick : visit_pick repr items pick <> IndexError.
Proof.
  destruct pick as [s|l|d]; try done.
  destruct (d !! "index"%string) as [v|] eqn:Hd.
  - destruct (PyVal.as_int v) as [i|] eqn:Hv.
    + rewrite (visit_pick_int _ _ _ _ Hd Hv).
      destruct ((1 <=? i) && (i <=? Z.of_nat (length items))) eqn:Hr; [|done].
      apply andb_true_iff in Hr as [H1%Z.leb_le H2%Z.leb_le].
      destruct (items !! Z.to_nat (i - 1)) as [row|] eqn:Hrow; [done|].
      apply lookup_ge_None in Hrow. lia.
    + by rewrite (visit_pick_not_int _ _ _ Hd Hv).
  - by rewrite (visit_pick_missing _ _ Hd).
Qed.

Lemma validate_picks_kept items raw_picks :
  exists ev, validate_picks repr items raw_picks
             = Some (omap (kept repr items) raw_picks, ev)
             /\ forall e, e ∈ ev -> exists v, e = SkippingPick v.
Proof.
  induction raw_picks as [|pick rest (ev & IH & Hev)].
  { exists []. split; [done|]. intros e He. by apply elem_of_nil in He. }
  change (omap (kept repr items) (pick :: rest))
    with (match kept repr items pick with
          | Some y => y :: omap (kept repr items) rest
          | None => omap (kept repr items) rest
          end).
  cbn [validate_picks]. unfold kept at 1.
  pose proof (visit_pick_no_error items pick) as Hne.
  destruct (visit_pick repr items pick) as [p| |v|]; try done; rewrite IH.
  - exists ev. split; [reflexivity|done].
  - exists ev. split; [reflexivity|done].
  - exists (SkippingPick v :: ev). split; [reflexivity|].
    intros e [->|He]%elem_of_cons; [by exists v | by apply Hev].
Qed.

Lemma write_digest_written now user_id items result :
  exists ev,
    write_digest repr now user_id items result
    = Some (ev ++ [InsertDigest
                     (digest_row now user_id result
                        (omap (kept repr items) (raw_picks_of result)))])
    /\ forall e, e ∈ ev -> exists v, e = SkippingPick v.
Proof.
  unfold write_digest.
  destruct (validate_picks_kept items (raw_picks_of result)) as (ev & -> & Hev).
  by exists ev.
Qed.

Lemma raw_picks_not_list result :
  (forall l, result !! "picks"%string <> Some (VList l)) -> raw_picks_of result = [].
Proof.
  intros H. unfold raw_picks_of.
  destruct (result !! "picks"%string) as [[s|l|d]|]; try done.
  by destruct (H l).
Qed.

Lemma validate_picks_app items l1 l2 :
  validate_picks repr items (l1 ++ l2)
  = match validate_picks repr items l1, validate_picks repr items l2 with
    | Some (p1, w1), Some (p2, w2) => Some (p1 ++ p2, w1 ++ w2)
    | _, _ => None
    end.
Proof.
  induction l1 as [|pick l1 IH].
  { cbn [app validate_picks]. by destruct (validate_picks repr items l2) as [[p2 w2]|]. }
  rewrite <- app_comm_cons. cbn [validate_picks]. rewrite IH.
  destruct (visit_pick repr items pick) as [p| |v|];
    destruct (validate_picks repr items l1) as [[p1 w1]|];
    destruct (validate_picks repr items l2) as [[p2 w2]|]; reflexivity.
Qed.

(** The digest written when the pick [d], between the picks [pre] and
    [post], is dropped with a warning. *)
Lemma write_digest_dropped now user_id items result pre post d v p1 w1 p2 w2 :
  result !! "picks"%string = Some (VList (pre ++ VDict d :: post)) ->
  validate_picks repr items pre = Some (p1, w1) ->
  validate_picks repr items post = Some (p2, w2) ->
  visit_pick repr items (VDict d) = InvalidIndex v ->
  write_digest repr now user_id items result
  = Some (w1 ++ SkippingPick v :: w2
          ++ [InsertDigest (digest_row now user_id result (p1 ++ p2))]).
Proof.
  intros Hr H1 H2 Hv. unfold write_digest, raw_picks_of. rewrite Hr.
  rewrite validate_picks_app, H1. cbn [validate_picks]. rewrite Hv, H2.
  cbn. by rewrite <- app_assoc.
Qed.

(** The digest written when the pick [d], between the picks [pre] and
    [post], is kept as the pick [p]. *)
Lemma write_digest_accepted now user_id items result pre post d p p1 w1 p2 w2 :
  result !! "picks"%string = Some (VList (pre ++ VDict d :: post)) ->
  validate_picks repr items pre = Some (p1, w1) ->
  validate_picks repr items post = Some (p2, w2) ->
  visit_pick repr items (VDict d) = Appended p ->
  write_digest repr now user_id items result
  = Some (w1 ++ w2 ++ [InsertDigest (digest_row now user_id result (p1 ++ p :: p2))]).
Proof.
  intros Hr H1 H2 Hv. unfold write_digest, raw_picks_of. rewrite Hr.
  rewrite validate_picks_app, H1. cbn [validate_picks]. rewrite Hv, H2.
  cbn. by rewrite <- app_assoc.
Qed.

Lemma validate_picks_returns items raw_picks :
  exists ps ws, validate_picks repr items raw_picks = Some (ps, ws).
Proof.
  destruct (validate_picks_kept items raw_picks) as (ev & H & _). by eexists _, _.
Qed.

(** C6: [write_digest] receives [N] candidates and a response whose
    picks hold the dictionary [d] between the picks [pre] and [post],
    which give the picks [p1], [p2] and the warnings [w1], [w2].  When
    the index of [d] is missing, not an integer (the string ["2"]), 0 or
    [N + 1], the digest is written without a pick for [d] and with a
    warning for it; when it is an integer of [1 .. N], as 1 and [N] are,
    the digest is written with the pick of [d] in its place and no
    warning, and that pick carries the identity of the candidate at
    position [i - 1]. *)
Theorem pick_index_validation (now : Z) (user_id : string) (items : list Row.t)
    (result : gmap string pyval) (pre post : list pyval) (d : gmap string pyval) :
  result !! "picks"%string = Some (VList (pre ++ VDict d :: post)) ->
  let N := Z.of_nat (length items) in
  exists p1 w1 p2 w2,
    validate_picks repr items pre = Some (p1, w1)
    /\ validate_picks repr items post = Some (p2, w2)
    /\ let dropped v :=
         write_digest repr now user_id items result
         = Some (w1 ++ SkippingPick v :: w2
                 ++ [InsertDigest (digest_row now user_id result (p1 ++ p2))]) in
       let accepted row :=
         write_digest repr now user_id items result
         = Some (w1 ++ w2
                 ++ [InsertDigest
                       (digest_row now user_id result
                          (p1 ++ {| Pick.item_id := Row.id row;
                                    Pick.reason := reason_of repr d |} :: p2))]) in
       (d !! "index"%string = None -> dropped (VScalar SNone))
       /\ (forall v, d !! "index"%string = Some v ->
                     match v with
                     | VScalar (SInt _) | VScalar (SBool _) => False
                     | _ => True
                     end -> dropped v)
       /\ (d !! "index"%string = Some (VScalar (SStr "2")) ->
           dropped (VScalar (SStr "2")))
       /\ (d !! "index"%string = Some (VScalar (SInt 0)) ->
           dropped (VScalar (SInt 0)))
       /\ (d !! "index"%string = Some (VScalar (SInt (N + 1))) ->
           dropped (VScalar (SInt (N + 1))))
       /\ (forall i, d !! "index"%string = Some (VScalar (SInt i)) ->
                     i < 1 \/ N < i -> dropped (VScalar (SInt i)))
       /\ (forall i, d !! "index"%string = Some (VScalar (SInt i)) -> 1 <= i <= N ->
                     exists row, items !! Z.to_nat (i - 1) = Some row /\ accepted row)
       /\ (1 <= N -> d !! "index"%string = Some (VScalar (SInt 1)) ->
           exists row, items !! 0%nat = Some row /\ accepted row)
       /\ (1 <= N -> d !! "index"%string = Some (VScalar (SInt N)) ->
           exists row, last items = Some row /\ accepted row).
Proof.
  intros Hr N.
  destruct (validate_picks_returns items pre) as (p1 & w1 & H1).
  destruct (validate_picks_returns items post) as (p2 & w2 & H2).
  exists p1, w1, p2, w2. split; [done|]. split; [done|].
  intros dropped accepted.
  assert (Hdrop : forall v, visit_pick repr items (VDict d) = InvalidIndex v ->
                            dropped v).
  { intros v Hv. by eapply write_digest_dropped. }
  assert (Hacc : forall row,
            visit_pick repr items (VDict d) = Appended (resolved repr row d) ->
            accepted row).
  { intros row Hv. by eapply write_digest_accepted. }
  repeat split.
  - intros Hd. by apply Hdrop, visit_pick_missing.
  - intros v Hd Hv. apply Hdrop, visit_pick_not_int; [done|].
    by destruct v as [[]| |].
  - intros Hd. by apply Hdrop, visit_pick_not_int.
  - intros Hd. apply Hdrop. eapply visit_pick_out_of_range; [done|done|lia].
  - intros Hd. apply Hdrop. eapply visit_pick_out_of_range; [done|done|lia].
  - intros i Hd Hi. apply Hdrop. by eapply visit_pick_out_of_range.
  - intros i Hd Hi.
    destruct (visit_pick_accepts items d _ i Hd eq_refl Hi) as (row & Hrow & Hv).
    exists row. split; [done|by apply Hacc].
  - intros HN Hd.
    destruct (visit_pick_accepts items d _ 1 Hd eq_refl) as (row & Hrow & Hv); [lia|].
    exists row. split; [done|by apply Hacc].
  - intros HN Hd.
    destruct (visit_pick_accepts items d _ N Hd eq_refl) as (row & Hrow & Hv); [lia|].
    exists row. split; [|by apply Hacc].
    rewrite last_lookup. rewrite <- Hrow. f_equal. unfold N. lia.
Qed.

(** C10: [write_digest] receives a response whose picks hold the
    dictionary [d] between the picks [pre] and [post].  When the index
    of [d] is [True] and there is a candidate, the digest is written
    with the pick of [d] in its place, carrying the identity of the
    first candidate, and without a warning for it; when the index is
    [False] the digest is written without a pick for [d] and with a
    warning for it. *)
Theorem bool_index_validation (now : Z) (user_id : string) (items : list Row.t)
    (result : gmap string pyval) (pre post : list pyval) (d : gmap string pyval) :
  result !! "picks"%string = Some (VList (pre ++ VDict d :: post)) ->
  exists p1 w1 p2 w2,
    validate_picks repr items pre = Some (p1, w1)
    /\ validate_picks repr items post = Some (p2, w2)
    /\ (forall row, head items = Some row ->
          d !! "index"%string = Some (VScalar (SBool true)) ->
          write_digest repr now user_id items result
          = Some (w1 ++ w2
                  ++ [InsertDigest
                        (digest_row now user_id result
                           (p1 ++ {| Pick.item_id := Row.id row;
                                     Pick.reason := reason_of repr d |} :: p2))]))
    /\ (d !! "index"%string = Some (VScalar (SBool false)) ->
        write_digest repr now user_id items result
        = Some (w1 ++ SkippingPick (VScalar (SBool false)) :: w2
                ++ [InsertDigest (digest_row now user_id result (p1 ++ p2))])).
Proof.
  intros Hr.
  destruct (validate_picks_returns items pre) as (p1 & w1 & H1).
  destruct (validate_picks_returns items post) as (p2 & w2 & H2).
  exists p1, w1, p2, w2. split; [done|]. split; [done|]. split.
  - intros row Hrow Hd. destruct items as [|row' rest]; [done|].
    injection Hrow as ->.
    destruct (visit_pick_accepts (row :: rest) d _ 1 Hd eq_refl)
      as (row' & Hrow & Hv); [cbn [length]; lia|].
    cbn in Hrow. injection Hrow as <-.
    by eapply write_digest_accepted.
  - intros Hd. eapply write_digest_dropped; [done|done|done|].
    eapply visit_pick_out_of_range; [done|done|lia].
Qed.

(** C8: a response whose [picks] is not a list is read as having no
    pick, and the digest is inserted with the picks that survive the
    validation, none included: [write_digest] raises nothing before the
    insertion. *)
Theorem digest_written_with_surviving_picks
    (now : Z) (user_id : string) (items : list Row.t)
    (result : gmap string pyval) :
  ((forall l, result !! "picks"%string <> Some (VList l)) ->
   write_digest repr now user_id items result
   = Some [InsertDigest (digest_row now user_id result [])])
  /\ exists ev,
       write_digest repr now user_id items result
       = Some (ev ++ [InsertDigest
                        (digest_row now user_id result
                           (omap (kept repr items) (raw_picks_of result)))])
       /\ forall e, e ∈ ev -> exists v, e = SkippingPick v.
Proof.
  split.
  - intros H. unfold write_digest. by rewrite (raw_picks_not_list _ H).
  - apply write_digest_written.
Qed.

End WithRepr.

Lemma pick_index_validation_witness :
  write_digest repr_blank 0 "user" [row_of 7; row_of 8]
    {[ "picks"%string := VList [VDict {[ "index"%string := VScalar (SInt 2) ]}] ]}
  = Some [InsertDigest
            {| DigestRow.user_id := "user";
               DigestRow.overview := VScalar (SStr "");
               DigestRow.picks := [{| Pick.item_id := SInt 8; Pick.reason := "" |}];
               DigestRow.time_window_hours := 24;
               DigestRow.generated_at := 0 |}].
Proof.
  destruct (pick_index_validation repr_blank 0 "user" [row_of 7; row_of 8]
              {[ "picks"%string :=
                   VList [VDict {[ "index"%string := VScalar (SInt 2) ]}] ]}
              [] [] {[ "index"%string := VScalar (SInt 2) ]})
    as (p1 & w1 & p2 & w2 & H1 & H2 & _ & _ & _ & _ & _ & _ & H & _).
  { reflexivity. }
  injection H1 as <- <-. injection H2 as <- <-.
  destruct (H 2) as (row & Hrow & ->); [reflexivity | cbn; lia |].
  cbn in Hrow. injection Hrow as <-. reflexivity.
Defined.

Lemma bool_index_validation_witness :
  write_digest repr_blank 0 "user" [row_of 7; row_of 8]
    {[ "picks"%string := VList [VDict {[ "index"%string := VScalar (SBool true) ]}] ]}
  = Some [InsertDigest
            {| DigestRow.user_id := "user";
               DigestRow.overview := VScalar (SStr "");
               DigestRow.picks := [{| Pick.item_id := SInt 7; Pick.reason := "" |}];
               DigestRow.time_window_hours := 24;
               DigestRow.generated_at := 0 |}].
Proof.
  destruct (bool_index_validation repr_blank 0 "user" [row_of 7; row_of 8]
              {[ "picks"%string :=
                   VList [VDict {[ "index"%string := VScalar (SBool true) ]}] ]}
              [] [] {[ "index"%string := VScalar (SBool true) ]})
    as (p1 & w1 & p2 & w2 & H1 & H2 & H & _).
  { reflexivity. }
  injection H1 as <- <-. injection H2 as <- <-.
  rewrite (H (row_of 7)); reflexivity.
Defined.

Lemma digest_written_with_surviving_picks_witness :
  write_digest repr_blank 0 "user" [row_of 7]
    {[ "overview"%string := VScalar (SStr "Quiet day");
       "picks"%string := VScalar (SStr "none") ]}
  = Some [InsertDigest
            {| DigestRow.user_id := "user";
               DigestRow.overview := VScalar (SStr "Quiet day");
               DigestRow.picks := [];
               DigestRow.time_window_hours := 24;
               DigestRow.generated_at := 0 |}].
Proof.
  destruct (digest_written_with_surviving_picks repr_blank 0 "user" [row_of 7]
              {[ "overview"%string := VScalar (SStr "Quiet day");
                 "picks"%string := VScalar (SStr "none") ]}) as [H _].
  rewrite H; [reflexivity|].
  intros l. vm_compute. discriminate.
Defined.

(** The third scenario of the specification: of the picks 1 and 99
    against five candidates, the first alone survives. *)
Example two_picks_one_survives :
  let pick i := VDict {[ "index"%string := VScalar (SInt i);
                         "reason"%string := VScalar (SStr "why") ]} in
  omap (kept repr_blank [row_of 1; row_of 2; row_of 3; row_of 4; row_of 5])
       [pick 1; pick 99]
  = [{| Pick.item_id := SInt 1; Pick.reason := "why" |}].
Proof. vm_compute. reflexivity. Qed.

End DigestProofs.

(** ** Lemmas on strings *)

Module TextFacts.
Import TextNotions.

(** *** White space *)

Lemma tidy_from_weaken s : tidy_from true s = true -> tidy_from false s = true.
Proof.
  destruct s as [|c r]; [done|]. cbn.
  destruct (PyStr.isspace c); [|done].
  rewrite andb_false_r. discriminate.
Qed.

Lemma sub_spaces_from_tidy b s : tidy_from b (PyStr.sub_spaces_from b s) = true.
Proof.
  revert b. induction s as [|c r IH]; intros b; [done|].
  cbn [PyStr.sub_spaces_from]. destruct (PyStr.isspace c) eqn:Hc.
  - destruct b; [apply IH|].
    cbn. by rewrite IH.
  - cbn [tidy_from]. rewrite Hc. apply IH.
Qed.

Lemma lstrip_tidy s : tidy_from false s = true -> tidy (PyStr.lstrip s) = true.
Proof.
  unfold tidy. induction s as [|c r IH]; [done|].
  cbn [PyStr.lstrip tidy_from]. destruct (PyStr.isspace c) eqn:Hc.
  - intros (_ & H)%andb_true_iff. apply IH. by apply tidy_from_weaken.
  - intros H. cbn [tidy_from]. by rewrite Hc.
Qed.

Lemma rstrip_tidy b s : tidy_from b s = true -> tidy_from b (PyStr.rstrip s) = true.
Proof.
  revert b. induction s as [|c r IH]; intros b; [done|].
  cbn [PyStr.rstrip tidy_from]. destruct (PyStr.isspace c) eqn:Hc.
  - intros ((Heq & Hb)%andb_true_iff & H)%andb_true_iff.
    rewrite andb_true_r.
    destruct (PyStr.is_empty (PyStr.rstrip r)); [done|].
    cbn [tidy_from]. rewrite Hc, Heq, Hb. cbn. by apply IH.
  - intros H. rewrite andb_false_r. cbn [tidy_from]. rewrite Hc. by apply IH.
Qed.

Lemma slice_to_tidy n b s :
  tidy_from b s = true -> tidy_from b (PyStr.slice_to n s) = true.
Proof.
  revert b s. induction n as [|n IH]; intros b [|c r]; try done.
  cbn [PyStr.slice_to tidy_from]. destruct (PyStr.isspace c).
  - intros (H1 & H)%andb_true_iff. rewrite H1. cbn. by apply IH.
  - apply IH.
Qed.

Lemma slice_to_bound n s :
  (String.length (PyStr.slice_to n s) <= n)%nat
  /\ (String.length (PyStr.slice_to n s) <= String.length s)%nat.
Proof.
  revert s. induction n as [|n IH]; intros [|c s]; cbn; try lia.
  specialize (IH s). lia.
Qed.

Lemma slice_to_length n s : (String.length (PyStr.slice_to n s) <= n)%nat.
Proof. apply slice_to_bound. Qed.

(** *** Tags *)

Lemma no_gt_tagless s : no_gt s = true -> tagless s = true.
Proof.
  induction s as [|c r IH]; [done|]. cbn.
  intros (_ & H)%andb_true_iff. rewrite (IH H), H.
  rewrite orb_true_r. by destruct (is_lt c).
Qed.

Lemma lt_is_not_gt c : is_lt c = true -> is_gt c = false.
Proof.
  unfold is_lt, is_gt. intros ->%Ascii.eqb_eq. reflexivity.
Qed.

Lemma append_cons (c : ascii) (r t : string) :
  (String c r ++ t)%string = String c (r ++ t).
Proof. reflexivity. Qed.

Lemma no_gt_app s t : no_gt (s ++ t) = no_gt s && no_gt t.
Proof.
  induction s as [|c r IH]; [done|].
  rewrite append_cons. cbn [no_gt]. by rewrite IH, andb_assoc.
Qed.

Lemma no_gt_string_of_list b :
  no_gt (string_of_list_ascii b) = forallb (fun c => negb (is_gt c)) b.
Proof. induction b as [|c b IH]; [done|]. cbn. by rewrite IH. Qed.

Lemma forallb_rev {A} (p : A -> bool) (l : list A) :
  forallb p (rev l) = forallb p l.
Proof.
  induction l as [|x l IH]; [done|]. cbn.
  rewrite forallb_app, IH. cbn. rewrite andb_true_r. apply andb_comm.
Qed.

Lemma append_empty_r (s : string) : (s ++ "")%string = s.
Proof. induction s as [|c r IH]; [done|]. by rewrite append_cons, IH. Qed.

Lemma string_of_list_snoc (l : list ascii) (c : ascii) (s : string) :
  (string_of_list_ascii (l ++ [c]) ++ s)%string
  = (string_of_list_ascii l ++ String c s)%string.
Proof.
  induction l as [|x l IH]; [done|].
  cbn [app string_of_list_ascii]. by rewrite !append_cons, IH.
Qed.

(** In a text without [>] nothing is a tag. *)
Lemma sub_tags_from_no_gt b s :
  no_gt s = true ->
  PyStr.sub_tags_from (Some b) s
  = String "<"%char (string_of_list_ascii (rev b) ++ s).
Proof.
  revert b. induction s as [|c r IH]; intros b Hs.
  - cbn. by rewrite append_empty_r.
  - cbn in Hs. apply andb_true_iff in Hs as [Hc Hr].
    apply negb_true_iff in Hc. unfold is_gt in Hc.
    cbn [PyStr.sub_tags_from]. rewrite Hc.
    destruct b as [|x b]; rewrite (IH _ Hr); cbn [rev app];
      [reflexivity | by rewrite string_of_list_snoc].
Qed.

Lemma sub_tags_from_tagless buf s :
  (forall b, buf = Some b -> forallb (fun c => negb (is_gt c)) b = true) ->
  tagless (PyStr.sub_tags_from buf s) = true.
Proof.
  revert buf. induction s as [|c r IH]; intros buf Hbuf.
  - destruct buf as [b|]; [|done]. cbn.
    assert (Hn : no_gt (string_of_list_ascii (rev b)) = true).
    { rewrite no_gt_string_of_list, forallb_rev. by apply Hbuf. }
    by rewrite Hn, orb_true_r, (no_gt_tagless _ Hn).
  - cbn [PyStr.sub_tags_from]. destruct buf as [[|x b]|].
    + destruct (Ascii.eqb c ">"%char) eqn:Hc.
      * cbn. apply IH. discriminate.
      * apply IH. intros ? [= <-]. cbn. unfold is_gt. by rewrite Hc.
    + destruct (Ascii.eqb c ">"%char) eqn:Hc.
      * cbn. apply IH. discriminate.
      * apply IH. intros ? [= <-].
        change (negb (is_gt c)
                && forallb (fun c => negb (is_gt c)) (x :: b) = true).
        unfold is_gt at 1. rewrite Hc. by apply Hbuf.
    + destruct (Ascii.eqb c "<"%char) eqn:Hc.
      * apply IH. by intros ? [= <-].
      * cbn [tagless]. unfold is_lt. rewrite Hc. apply IH. discriminate.
Qed.

Lemma tagless_fixed s :
  tagless s = true ->
  PyStr.sub_tags_from None s = s
  /\ (starts_with_gt s || no_gt s = true ->
      PyStr.sub_tags_from (Some []) s = String "<"%char s).
Proof.
  induction s as [|c r IH]; [done|].
  cbn [tagless]. intros (Hc & Hr)%andb_true_iff.
  destruct (IH Hr) as [IH1 IH2]. split.
  - cbn [PyStr.sub_tags_from]. destruct (is_lt c) eqn:Hlt.
    + unfold is_lt in Hlt. rewrite Hlt. apply Ascii.eqb_eq in Hlt as ->.
      by apply IH2.
    + unfold is_lt in Hlt. rewrite Hlt. by rewrite IH1.
  - intros Hs. cbn [starts_with_gt no_gt] in Hs.
    destruct (is_gt c) eqn:Hgt.
    + cbn [PyStr.sub_tags_from]. unfold is_gt in Hgt. rewrite Hgt.
      apply Ascii.eqb_eq in Hgt as ->. by rewrite IH1.
    + cbn in Hs. apply (sub_tags_from_no_gt []). cbn. by rewrite Hgt.
Qed.

Lemma sub_spaces_from_no_gt b s :
  no_gt s = true -> no_gt (PyStr.sub_spaces_from b s) = true.
Proof.
  revert b. induction s as [|c r IH]; intros b; [done|].
  cbn [no_gt PyStr.sub_spaces_from]. intros (Hc & Hr)%andb_true_iff.
  destruct (PyStr.isspace c).
  - destruct b; [by apply IH|]. cbn. by apply IH.
  - cbn. rewrite Hc. by apply IH.
Qed.

Lemma gt_is_not_space c : is_gt c = true -> PyStr.isspace c = false.
Proof. unfold is_gt. by intros ->%Ascii.eqb_eq. Qed.

Lemma lt_is_not_space c : is_lt c = true -> PyStr.isspace c = false.
Proof. unfold is_lt. by intros ->%Ascii.eqb_eq. Qed.

Lemma sub_spaces_from_opening b s :
  starts_with_gt s || no_gt s = true ->
  starts_with_gt (PyStr.sub_spaces_from b s)
  || no_gt (PyStr.sub_spaces_from b s) = true.
Proof.
  intros [H|H]%orb_true_iff.
  - destruct s as [|c r]; [done|]. cbn in H. cbn [PyStr.sub_spaces_from].
    rewrite (gt_is_not_space _ H). cbn. by rewrite H.
  - by rewrite sub_spaces_from_no_gt, orb_true_r.
Qed.

Lemma sub_spaces_from_keeps_tagless b s :
  tagless s = true -> tagless (PyStr.sub_spaces_from b s) = true.
Proof.
  revert b. induction s as [|c r IH]; intros b; [done|].
  cbn [tagless PyStr.sub_spaces_from]. intros (Hc & Hr)%andb_true_iff.
  destruct (is_lt c) eqn:Hlt.
  - rewrite (lt_is_not_space _ Hlt). cbn [tagless]. rewrite Hlt.
    by rewrite sub_spaces_from_opening, IH.
  - destruct (PyStr.isspace c).
    + destruct b; [by apply IH|]. cbn. by apply IH.
    + cbn [tagless]. rewrite Hlt. by apply IH.
Qed.

Lemma tagless_tail c r : tagless (String c r) = true -> tagless r = true.
Proof. cbn. by intros (_ & H)%andb_true_iff. Qed.

Lemma lstrip_keeps_tagless s : tagless s = true -> tagless (PyStr.lstrip s) = true.
Proof.
  induction s as [|c r IH]; [done|]. intros H.
  cbn [PyStr.lstrip]. destruct (PyStr.isspace c); [|done].
  apply IH. by eapply tagless_tail.
Qed.

Lemma rstrip_no_gt s : no_gt s = true -> no_gt (PyStr.rstrip s) = true.
Proof.
  induction s as [|c r IH]; [done|].
  cbn [no_gt PyStr.rstrip]. intros (Hc & Hr)%andb_true_iff.
  destruct (PyStr.is_empty (PyStr.rstrip r) && PyStr.isspace c); [done|].
  cbn. by rewrite Hc, IH.
Qed.

Lemma rstrip_opening s :
  starts_with_gt s || no_gt s = true ->
  starts_with_gt (PyStr.rstrip s) || no_gt (PyStr.rstrip s) = true.
Proof.
  intros [H|H]%orb_true_iff.
  - destruct s as [|c r]; [done|]. cbn in H. cbn [PyStr.rstrip].
    rewrite (gt_is_not_space _ H), andb_false_r. cbn. by rewrite H.
  - by rewrite rstrip_no_gt, orb_true_r.
Qed.

Lemma rstrip_keeps_tagless s : tagless s = true -> tagless (PyStr.rstrip s) = true.
Proof.
  induction s as [|c r IH]; [done|].
  cbn [tagless PyStr.rstrip]. intros (Hc & Hr)%andb_true_iff.
  destruct (PyStr.is_empty (PyStr.rstrip r) && PyStr.isspace c); [done|].
  cbn [tagless]. rewrite (IH Hr), andb_true_r.
  destruct (is_lt c); [|done]. by apply rstrip_opening.
Qed.

Lemma slice_to_no_gt n s : no_gt s = true -> no_gt (PyStr.slice_to n s) = true.
Proof.
  revert s. induction n as [|n IH]; intros [|c r]; try done.
  cbn [no_gt PyStr.slice_to]. intros (Hc & Hr)%andb_true_iff.
  by rewrite Hc, IH.
Qed.

Lemma slice_to_opening n s :
  starts_with_gt s || no_gt s = true ->
  starts_with_gt (PyStr.slice_to n s) || no_gt (PyStr.slice_to n s) = true.
Proof.
  intros [H|H]%orb_true_iff.
  - destruct s as [|c r]; [done|]. destruct n as [|n]; [done|].
    cbn in *. by rewrite H.
  - by rewrite slice_to_no_gt, orb_true_r.
Qed.

Lemma slice_to_keeps_tagless n s :
  tagless s = true -> tagless (PyStr.slice_to n s) = true.
Proof.
  revert s. induction n as [|n IH]; intros [|c r]; try done.
  cbn [tagless PyStr.slice_to]. intros (Hc & Hr)%andb_true_iff.
  rewrite (IH _ Hr), andb_true_r.
  destruct (is_lt c); [|done]. by apply slice_to_opening.
Qed.

End TextFacts.

(** ** Further properties of fetcher.py *)

Module FetcherFacts.
Import Fetcher Samples FetcherNotions TextNotions FetcherProofs TextFacts.

(** *** The first pass *)

(** X1: after the first pass the correlation index holds, for every url,
    the number of candidates that carry it, and no key for a url that no
    candidate carries. *)
Theorem correlation_index_counts_candidates (r : Run) (u : string) :
  default 0 (url_feed_count (pass1 r) !! u)
  = Z.of_nat (occurrences u (all_candidates (pass1 r)))
  /\ (url_feed_count (pass1 r) !! u = None
      <-> occurrences u (all_candidates (pass1 r)) = 0%nat).
Proof.
  rewrite (pass1_counts r u). case_decide as H0.
  - rewrite H0. by split.
  - split; [done|]. split; [done|]. intros; lia.
Qed.

Lemma scan_entry_ok cutoff feed st entry :
  Forall (candidate_ok cutoff) (all_candidates st) ->
  Forall (candidate_ok cutoff) (all_candidates (scan_entry cutoff feed st entry)).
Proof.
  intros Hst. unfold scan_entry.
  destruct (PyStr.is_empty (entry_url entry)) eqn:Hu; [done|].
  destruct (parse_published entry) as [p|] eqn:Hp.
  - destruct (p <? cutoff) eqn:Hc; [done|].
    cbn [all_candidates]. apply Forall_app. split; [done|].
    apply Forall_singleton. repeat split; cbn.
    + intros He. change (entry_url entry = ""%string) in He. by rewrite He in Hu.
    + done.
    + intros q [= <-]. by apply Z.ltb_ge.
  - cbn [all_candidates]. apply Forall_app. split; [done|].
    apply Forall_singleton. repeat split; cbn.
    + intros He. change (entry_url entry = ""%string) in He. by rewrite He in Hu.
    + done.
    + done.
Qed.

Lemma foldl_scan_entry_ok cutoff feed entries st :
  Forall (candidate_ok cutoff) (all_candidates st) ->
  Forall (candidate_ok cutoff)
         (all_candidates (foldl (scan_entry cutoff feed) st entries)).
Proof.
  revert st. induction entries as [|e es IH]; intros st Hst; [done|].
  cbn. apply IH. by apply scan_entry_ok.
Qed.

Lemma first_pass_ok cutoff feeds :
  Forall (candidate_ok cutoff) (all_candidates (fst (first_pass cutoff feeds))).
Proof.
  unfold first_pass.
  assert (H0 : Forall (candidate_ok cutoff)
                 (all_candidates
                    (fst ({| url_feed_count := ∅; all_candidates := [] |},
                          @nil Event)))) by constructor.
  revert H0. generalize ({| url_feed_count := ∅; all_candidates := [] |}, @nil Event).
  induction feeds as [|[feed [entries|e]] rest IH]; intros [st log] Hacc; [done| |].
  - cbn [foldl]. apply IH. cbn. by apply foldl_scan_entry_ok.
  - cbn [foldl]. apply IH. done.
Qed.

(** X2: every candidate of a run has a canonical url that is not empty
    and carries, under [_published_dt], the date that [parse_published]
    reads from it; a dated candidate is not older than the cutoff, thirty
    days before the first clock reading. *)
Theorem candidates_are_fresh_and_addressed (r : Run) (e : Entry.t) (f : Feed.t) :
  (e, f) ∈ all_candidates (pass1 r) ->
  entry_url e <> ""%string
  /\ Entry._published_dt e = parse_published e
  /\ forall p, Entry._published_dt e = Some p ->
               clock r 0%nat - DateTime.days 30 <= p.
Proof.
  intros Hc.
  pose proof (first_pass_ok (cutoff r) (feeds r)) as H.
  rewrite Forall_forall in H. exact (H _ Hc).
Qed.

Lemma candidates_are_fresh_and_addressed_witness :
  entry_url (Entry.set_published_dt (Some (DateTime.days 3))
               (entry_at "http://x" (Some jan4))) <> ""%string.
Proof.
  apply (candidates_are_fresh_and_addressed run_future _ (feed_of 1 2)).
  vm_compute. left.
Defined.

(** The state of the first pass does not depend on the log. *)
Lemma scan_feed_state cutoff st log1 log2 src :
  fst (scan_feed cutoff (st, log1) src) = fst (scan_feed cutoff (st, log2) src).
Proof. by destruct src as [feed [entries|e]]. Qed.

Lemma foldl_scan_feed_state cutoff l acc1 acc2 :
  fst acc1 = fst acc2 ->
  fst (foldl (scan_feed cutoff) acc1 l) = fst (foldl (scan_feed cutoff) acc2 l).
Proof.
  revert acc1 acc2. induction l as [|src l IH]; intros [s1 l1] [s2 l2] H; [done|].
  cbn in H. subst s2. cbn [foldl]. apply IH. apply scan_feed_state.
Qed.

Lemma scan_feed_log_grows cutoff acc src :
  snd acc `prefix_of` snd (scan_feed cutoff acc src).
Proof.
  destruct acc as [st log], src as [feed [entries|e]]; cbn.
  - by eexists.
  - rewrite <- app_assoc. by eexists.
Qed.

Lemma foldl_scan_feed_log_grows cutoff l acc :
  snd acc `prefix_of` snd (foldl (scan_feed cutoff) acc l).
Proof.
  revert acc. induction l as [|src l IH]; intros acc; [done|].
  cbn [foldl]. etransitivity; [apply scan_feed_log_grows | apply IH].
Qed.

(** X3: a feed whose fetch raises is skipped with a warning and changes
    neither the candidates nor the counts that the other feeds give. *)
Theorem failed_feed_is_skipped (cutoff : Z) (before after : list (Feed.t * Fetched))
    (feed : Feed.t) (e : string) :
  fst (first_pass cutoff (before ++ (feed, Raised e) :: after))
  = fst (first_pass cutoff (before ++ after))
  /\ Log WARNING (FailedToFetch (Feed.url feed) e)
     ∈ snd (first_pass cutoff (before ++ (feed, Raised e) :: after)).
Proof.
  unfold first_pass. rewrite !foldl_app. cbn [foldl]. split.
  - apply foldl_scan_feed_state.
    by destruct (foldl (scan_feed cutoff) _ before).
  - eapply elem_of_prefix; [|apply foldl_scan_feed_log_grows].
    destruct (foldl (scan_feed cutoff) _ before) as [st log]. cbn.
    apply elem_of_app. right. by left.
Qed.

Lemma scan_entry_length cutoff feed st entry :
  (length (all_candidates (scan_entry cutoff feed st entry))
   <= S (length (all_candidates st)))%nat.
Proof.
  unfold scan_entry.
  destruct (PyStr.is_empty _); [lia|].
  destruct (match parse_published entry with
            | Some p => p <? cutoff | None => false end); [lia|].
  cbn [all_candidates]. rewrite length_app. cbn. lia.
Qed.

Lemma foldl_scan_entry_length cutoff feed entries st :
  (length (all_candidates (foldl (scan_entry cutoff feed) st entries))
   <= length (all_candidates st) + length entries)%nat.
Proof.
  revert st. induction entries as [|e es IH]; intros st; cbn; [lia|].
  etransitivity; [apply IH|].
  pose proof (scan_entry_length cutoff feed st e). lia.
Qed.

Lemma considered_length feed entries :
  (length (considered feed entries) <= length entries)%nat
  /\ (Feed.max_items feed = None -> (length (considered feed entries) <= 10)%nat)
  /\ (forall n, Feed.max_items feed = Some (Some n) -> 0 <= n ->
                (length (considered feed entries) <= Z.to_nat n)%nat).
Proof.
  unfold considered, slice_to. repeat split.
  - destruct (default (Some 10) (Feed.max_items feed)) as [n|]; [|done].
    destruct (0 <=? n); rewrite length_take; lia.
  - intros ->. cbn. rewrite length_take. lia.
  - intros n -> Hn. cbn [from_option id].
    rewrite (proj2 (Z.leb_le 0 n) Hn), length_take. lia.
Qed.

(** X4: a feed adds to the candidates at most as many entries as its
    [max_items] allows, ten when the feed has no such key, and never more
    than it lists. *)
Theorem feed_adds_at_most_its_cap (cutoff : Z) (st : Pass1) (log : list Event)
    (feed : Feed.t) (entries : list Entry.t) :
  let added :=
    (length (all_candidates (fst (scan_feed cutoff (st, log) (feed, Parsed entries))))
     - length (all_candidates st))%nat in
  (added <= length entries)%nat
  /\ (Feed.max_items feed = None -> (added <= 10)%nat)
  /\ (forall n, Feed.max_items feed = Some (Some n) -> 0 <= n ->
                (added <= Z.to_nat n)%nat).
Proof.
  cbn [scan_feed fst].
  pose proof (foldl_scan_entry_length cutoff feed
                (slice_to (default (Some 10) (Feed.max_items feed)) entries) st) as H.
  destruct (considered_length feed entries) as (H1 & H2 & H3).
  unfold considered in *. repeat split.
  - lia.
  - intros Hm. specialize (H2 Hm). lia.
  - intros n Hm Hn. specialize (H3 n Hm Hn). lia.
Qed.

Lemma feed_adds_at_most_its_cap_witness :
  (length (all_candidates
             (fst (scan_feed 0%Z ({| url_feed_count := ∅; all_candidates := [] |}, [])
                     ({| Feed.id := SInt 1%Z; Feed.name := "Wire"; Feed.url := "u";
                         Feed.tier := None; Feed.max_items := Some (Some 2%Z);
                         Feed.category := None |},
                      Parsed [entry_at "http://a" None; entry_at "http://b" None;
                              entry_at "http://c" None]))))
   - 0 <= 2)%nat.
Proof.
  refine (proj2 (proj2 (feed_adds_at_most_its_cap 0
            {| url_feed_count := ∅; all_candidates := [] |} [] _ _)) 2 _ _).
  - reflexivity.
  - lia.
Defined.

Lemma scan_entry_grows cutoff feed st entry :
  all_candidates st `prefix_of` all_candidates (scan_entry cutoff feed st entry).
Proof.
  unfold scan_entry.
  destruct (PyStr.is_empty _); [done|].
  destruct (match parse_published entry with
            | Some p => p <? cutoff | None => false end); [done|].
  cbn [all_candidates]. by eexists.
Qed.

Lemma foldl_scan_entry_grows cutoff feed entries st :
  all_candidates st
  `prefix_of` all_candidates (foldl (scan_entry cutoff feed) st entries).
Proof.
  revert st. induction entries as [|e es IH]; intros st; [done|].
  cbn. etransitivity; [apply scan_entry_grows | apply IH].
Qed.

Lemma scan_feed_grows cutoff acc src :
  all_candidates (fst acc)
  `prefix_of` all_candidates (fst (scan_feed cutoff acc src)).
Proof.
  destruct acc as [st log], src as [feed [entries|e]]; cbn; [|done].
  apply foldl_scan_entry_grows.
Qed.

Lemma foldl_scan_feed_grows cutoff l acc :
  all_candidates (fst acc)
  `prefix_of` all_candidates (fst (foldl (scan_feed cutoff) acc l)).
Proof.
  revert acc. induction l as [|src l IH]; intros acc; [done|].
  cbn [foldl]. etransitivity; [apply scan_feed_grows | apply IH].
Qed.

Lemma foldl_scan_entry_keeps cutoff feed entries st e :
  e ∈ entries -> entry_url e <> ""%string ->
  (forall p, parse_published e = Some p -> cutoff <= p) ->
  (Entry.set_published_dt (parse_published e) e, feed)
  ∈ all_candidates (foldl (scan_entry cutoff feed) st entries).
Proof.
  intros He Hu Hp. revert st.
  induction entries as [|x xs IH]; intros st; [by apply elem_of_nil in He|].
  apply elem_of_cons in He as [<-|He]; [|by apply IH].
  cbn [foldl]. eapply elem_of_prefix; [|apply foldl_scan_entry_grows].
  unfold scan_entry.
  destruct (PyStr.is_empty (entry_url e)) eqn:Hempty.
  { destruct (entry_url e); [done|discriminate]. }
  destruct (parse_published e) as [p|] eqn:Hpe.
  - rewrite (proj2 (Z.ltb_ge p cutoff)) by (by apply Hp).
    cbn [all_candidates]. apply elem_of_app. right. by left.
  - cbn [all_candidates]. apply elem_of_app. right. by left.
Qed.

(** X5: an entry that a fetched feed lists within its cap, whose link is
    not blank and whose date is missing, invalid or not before the
    cutoff, is a candidate of the run, its parsed date attached. *)
Theorem listed_entry_becomes_candidate (r : Run) (feed : Feed.t)
    (entries : list Entry.t) (e : Entry.t) :
  (feed, Parsed entries) ∈ feeds r ->
  e ∈ considered feed entries ->
  entry_url e <> ""%string ->
  (forall p, parse_published e = Some p -> cutoff r <= p) ->
  (Entry.set_published_dt (parse_published e) e, feed) ∈ all_candidates (pass1 r).
Proof.
  intros Hf He Hu Hp. unfold pass1, first_pass.
  generalize ({| url_feed_count := ∅; all_candidates := [] |}, @nil Event).
  induction (feeds r) as [|src l IH]; intros acc; [by apply elem_of_nil in Hf|].
  apply elem_of_cons in Hf as [<-|Hf]; [|by apply IH].
  cbn [foldl]. eapply elem_of_prefix; [|apply foldl_scan_feed_grows].
  destruct acc as [st log]. cbn [scan_feed fst].
  by apply foldl_scan_entry_keeps.
Qed.

Lemma listed_entry_becomes_candidate_witness :
  (Entry.set_published_dt None (entry_at "http://y" None), feed_of 1 1)
  ∈ all_candidates (pass1 run_two_feeds).
Proof.
  apply (listed_entry_becomes_candidate run_two_feeds (feed_of 1 1)
           [entry_at "http://x" None; entry_at "http://y" None]
           (entry_at "http://y" None)).
  - left.
  - vm_compute. right. left.
  - vm_compute. discriminate.
  - intros p Hp. discriminate Hp.
Defined.

(** *** The second pass *)

Lemma second_pass_complete E clk cnt seen k cs c :
  c ∈ cs -> cand_url c ∉ E -> cand_url c ∉ seen ->
  cand_url c ∈ Item.url <$> second_pass E clk cnt seen k cs.
Proof.
  intros Hc HE. revert seen k.
  induction cs as [|[e f] cs IH]; intros seen k Hs; [by apply elem_of_nil in Hc|].
  cbn [second_pass].
  destruct (bool_decide (entry_url e ∈ E)) eqn:He; cbn [orb].
  { apply bool_decide_eq_true in He.
    apply elem_of_cons in Hc as [->|Hc]; [done|]. by apply IH. }
  destruct (bool_decide (entry_url e ∈ seen)) eqn:Hse.
  { apply bool_decide_eq_true in Hse.
    apply elem_of_cons in Hc as [->|Hc]; [done|]. by apply IH. }
  cbn [fmap list_fmap]. rewrite new_item_url.
  destruct (decide (cand_url c = entry_url e)) as [->|Hne]; [by left|].
  right. apply elem_of_cons in Hc as [->|Hc]; [done|].
  apply IH; [done|]. set_solver.
Qed.

(** X6: the urls of the batch are the canonical urls of the candidates
    that the store does not hold yet: no new url is lost. *)
Theorem batch_urls_are_the_new_urls (r : Run) (u : string) :
  u ∈ Item.url <$> new_items r
  <-> (u ∉ existing_urls r) /\ u ∈ cand_url <$> all_candidates (pass1 r).
Proof.
  split.
  - intros (it & -> & Hit)%list_elem_of_fmap.
    apply second_pass_elem in Hit as (HE & _ & c & Hc & Hcu).
    split; [done|]. apply list_elem_of_fmap. by exists c.
  - intros (HE & (c & -> & Hc)%list_elem_of_fmap).
    apply second_pass_complete; [done|done|]. apply not_elem_of_empty.
Qed.

Lemma second_pass_sublist E clk cnt seen k cs :
  (Item.url <$> second_pass E clk cnt seen k cs) `sublist_of` (cand_url <$> cs).
Proof.
  revert seen k. induction cs as [|[e f] cs IH]; intros seen k; [done|].
  cbn [second_pass].
  destruct (bool_decide (entry_url e ∈ E) || bool_decide (entry_url e ∈ seen)).
  - apply sublist_cons, IH.
  - cbn [fmap list_fmap]. rewrite new_item_url. apply sublist_skip, IH.
Qed.

(** X7: the batch keeps the order of the candidates: its urls are those
    of the candidates with some of them left out. *)
Theorem batch_keeps_candidate_order (r : Run) :
  (Item.url <$> new_items r) `sublist_of` (cand_url <$> all_candidates (pass1 r)).
Proof. apply second_pass_sublist. Qed.

Lemma second_pass_origin E clk cnt seen k cs it :
  it ∈ second_pass E clk cnt seen k cs ->
  exists e f j, (e, f) ∈ cs /\ it = new_item (clk j) cnt e f.
Proof.
  revert seen k. induction cs as [|[e f] cs IH]; intros seen k; cbn [second_pass].
  - intros H. by apply elem_of_nil in H.
  - destruct (bool_decide (entry_url e ∈ E) || bool_decide (entry_url e ∈ seen)).
    + intros H. destruct (IH _ _ H) as (e' & f' & j & Hc & ->).
      exists e', f', j. split; [by right|done].
    + intros [->|H]%elem_of_cons.
      * exists e, f, k. split; [by left|done].
      * destruct (IH _ _ H) as (e' & f' & j & Hc & ->).
        exists e', f', j. split; [by right|done].
Qed.

(** X8: every item of the batch is built from one candidate of the run,
    with the counts of the whole first pass; its url is not empty, its
    title and its summary have 500 characters at most. *)
Theorem batch_item_shape (r : Run) (it : Item.t) :
  it ∈ new_items r ->
  (exists e f j, (e, f) ∈ all_candidates (pass1 r)
                 /\ it = new_item (clock r (S j)) (url_feed_count (pass1 r)) e f)
  /\ Item.url it <> ""%string
  /\ (String.length (Item.title it) <= 500)%nat
  /\ (String.length (Item.summary it) <= 500)%nat.
Proof.
  intros Hit. apply second_pass_origin in Hit as (e & f & j & Hc & ->).
  split; [by exists e, f, j|].
  pose proof (first_pass_ok (cutoff r) (feeds r)) as Hok.
  rewrite Forall_forall in Hok. destruct (Hok _ Hc) as (Hu & _).
  repeat split; [done| |]; apply slice_to_length.
Qed.

Lemma batch_item_shape_witness :
  exists it, it ∈ new_items run_two_feeds /\ Item.url it <> ""%string.
Proof.
  destruct (new_items run_two_feeds) as [|it its] eqn:E;
    [vm_compute in E; discriminate|].
  exists it. split; [left|].
  apply (batch_item_shape run_two_feeds it). rewrite E. left.
Defined.

(** *** Persistence *)

Lemma no_feeds_no_items (r : Run) : feeds r = [] -> new_items r = [].
Proof. intros H. unfold new_items, pass1. by rewrite H. Qed.

Lemma chunks_nil : chunks 100 [] = [].
Proof. reflexivity. Qed.

Lemma inserted_chunks_main (r : Run) :
  inserted_chunks (main r) = chunks 100 (new_items r).
Proof.
  unfold inserted_chunks. rewrite main_calls.
  destruct (feeds r) as [|f fs] eqn:Ef.
  { by rewrite (no_feeds_no_items r Ef). }
  destruct (new_items r) as [|it its] eqn:Eb; [done|].
  rewrite <- Eb. rewrite omap_app. unfold insert_calls, sweep_calls.
  replace (omap _ (DeletePublishedBefore _ :: _)) with (@nil (list Item.t))
    by (cbn; by destruct (answer r _)).
  rewrite app_nil_r.
  induction (chunks 100 (new_items r)) as [|c cs IH]; [done|].
  cbn. by rewrite IH.
Qed.

Lemma chunk_size (l : list Item.t) chunk :
  chunk ∈ chunks 100 l -> (1 <= length chunk <= 100)%nat.
Proof.
  unfold chunks, range_step.
  intros (i & -> & (j & -> & Hj%elem_of_seq)%list_elem_of_fmap)%list_elem_of_fmap.
  rewrite length_take, length_drop.
  pose proof (Nat.div_mod_eq (length l + 100 - 1) 100).
  pose proof (Nat.mod_upper_bound (length l + 100 - 1) 100). lia.
Qed.

(** X9: the chunks handed to the store, put end to end, are the batch:
    every new item is handed over once, in order, in chunks of 1 to 100
    items. *)
Theorem every_new_item_is_handed_over_once (r : Run) :
  concat (inserted_chunks (main r)) = new_items r
  /\ Forall (fun chunk => (1 <= length chunk <= 100)%nat) (inserted_chunks (main r)).
Proof.
  rewrite inserted_chunks_main. split; [apply chunks_cover|].
  apply Forall_forall. intros chunk. apply chunk_size.
Qed.

(** X10: a run without feeds stops after three log records, and a run
    that finds nothing new calls the store neither to insert nor to
    delete: the retention sweep runs when and only when there is a new
    item. *)
Theorem sweep_only_with_new_items (r : Run) :
  (feeds r = [] ->
   main r = [Log INFO FetchingActiveFeeds; Log INFO (FoundFeeds 0);
             Log INFO NothingToDo])
  /\ (new_items r = [] -> calls (main r) = [])
  /\ (DeletePublishedBefore (old_cutoff r) ∈ calls (main r) <-> new_items r <> []).
Proof.
  split; [|split].
  - intros H. unfold main. by rewrite H.
  - intros H. rewrite main_calls, H. by destruct (feeds r).
  - rewrite main_calls. destruct (feeds r) as [|f fs] eqn:Ef.
    { rewrite (no_feeds_no_items r Ef). split; [by intros ?%elem_of_nil|done]. }
    destruct (new_items r) as [|it its] eqn:Eb.
    { split; [by intros ?%elem_of_nil|done]. }
    split; [done|]. intros _. apply elem_of_app. right. by left.
Qed.

Lemma sweep_only_with_new_items_witness :
  calls (main (run_of [(feed_of 1 1, Parsed [entry_at "http://y" None])]
                      {[ "http://y"%string ]} (fun _ => None))) = [].
Proof.
  apply (sweep_only_with_new_items
           (run_of [(feed_of 1 1, Parsed [entry_at "http://y" None])]
                   {[ "http://y"%string ]} (fun _ => None))).
  vm_compute. reflexivity.
Defined.

Lemma insert_chunks_count ans total k inserted cs :
  snd (insert_chunks ans total k inserted cs) = (inserted + accepted ans k cs)%nat.
Proof.
  revert k inserted. induction cs as [|chunk rest IH]; intros k inserted; cbn.
  { lia. }
  destruct (ans k).
  - specialize (IH (S k) inserted).
    destruct (insert_chunks ans total (S k) inserted rest). cbn in *. lia.
  - specialize (IH (S k) (inserted + length chunk)%nat).
    destruct (insert_chunks ans total (S k) (inserted + length chunk) rest).
    cbn in *. lia.
Qed.

Lemma accepted_le ans k cs : (accepted ans k cs <= length (concat cs))%nat.
Proof.
  revert k. induction cs as [|c cs IH]; intros k; cbn; [lia|].
  rewrite length_app. specialize (IH (S k)). destruct (ans k); lia.
Qed.

Lemma accepted_all ans k cs :
  (forall j, ans j = None) -> accepted ans k cs = length (concat cs).
Proof.
  intros H. revert k. induction cs as [|c cs IH]; intros k; cbn; [done|].
  rewrite H, length_app, IH. done.
Qed.

(** X11: the closing record of the insertions reports the number of items
    of the chunks that the store accepted: the size of the batch at
    most, and the size of the batch when no insertion failed. *)
Theorem done_reports_accepted_items (r : Run) :
  feeds r <> [] -> new_items r <> [] ->
  let n := accepted (answer r) 0 (chunks 100 (new_items r)) in
  Log INFO (Done n) ∈ main r
  /\ (n <= length (new_items r))%nat
  /\ ((forall j, answer r j = None) -> n = length (new_items r)).
Proof.
  intros Hf Hb n. split; [|split].
  - destruct (main_trace r Hf Hb) as (log & _ & ->).
    apply elem_of_app. right. unfold persist.
    pose proof (insert_chunks_count (answer r) (length (new_items r)) 0 0
                  (chunks 100 (new_items r))) as Hc.
    destruct (insert_chunks (answer r) (length (new_items r)) 0 0
                (chunks 100 (new_items r))) as [ev m].
    cbn in Hc. subst m. apply elem_of_app. right. by left.
  - unfold n. etransitivity; [apply accepted_le|]. by rewrite chunks_cover.
  - intros H. unfold n. by rewrite accepted_all, chunks_cover.
Qed.

Lemma done_reports_accepted_items_witness :
  Log INFO (Done 1) ∈ main run_sweep_fails.
Proof.
  refine (proj1 (done_reports_accepted_items run_sweep_fails _ _)).
  - discriminate.
  - vm_compute. discriminate.
Defined.

(** *** The range of the score *)

Lemma round2_between (lo hi : Z) (x : Q) :
  (inject_Z lo <= x <= inject_Z hi)%Q ->
  (inject_Z lo <= round2 x <= inject_Z hi)%Q.
Proof.
  intros [Hlo Hhi]. unfold round2.
  set (y := (x * 100)%Q). set (f := Qfloor y).
  assert (Hylo : (inject_Z (lo * 100) <= y)%Q).
  { unfold y. rewrite inject_Z_mult. by apply Qmult_le_compat_r. }
  assert (Hyhi : (y <= inject_Z (hi * 100))%Q).
  { unfold y. rewrite inject_Z_mult. by apply Qmult_le_compat_r. }
  assert (Hflo : lo * 100 <= f).
  { rewrite <- (Qfloor_Z (lo * 100)). by apply Qfloor_resp_le. }
  assert (Hfhi : f <= hi * 100).
  { rewrite <- (Qfloor_Z (hi * 100)). by apply Qfloor_resp_le. }
  assert (Hcmp : f = hi * 100 -> (y - inject_Z f ?= 1 # 2)%Q = Lt).
  { intros Hf. apply Qlt_alt. rewrite Hf.
    apply Qle_lt_trans with 0%Q; [|reflexivity].
    apply (Qplus_le_l _ _ (inject_Z (hi * 100))). ring_simplify. exact Hyhi. }
  assert (Hn : lo * 100
               <= match (y - inject_Z f ?= 1 # 2)%Q with
                  | Lt => f
                  | Gt => f + 1
                  | Eq => if Z.even f then f else f + 1
                  end
               <= hi * 100).
  { destruct (decide (f = hi * 100)) as [Hf|Hf].
    - rewrite (Hcmp Hf). lia.
    - destruct (y - inject_Z f ?= 1 # 2)%Q; [destruct (Z.even f)| |]; lia. }
  revert Hn.
  generalize (match (y - inject_Z f ?= 1 # 2)%Q with
              | Lt => f
              | Gt => f + 1
              | Eq => if Z.even f then f else f + 1
              end).
  intros n Hn. split; unfold Qle; cbn [Qnum Qden inject_Z]; lia.
Qed.

Lemma tier_weight_values (feed : Feed.t) :
  tier_weight feed = 40 \/ tier_weight feed = 20.
Proof.
  unfold tier_weight, PyVal.int_dict_get.
  destruct (PyVal.key_int (default (SInt 2) (Feed.tier feed))) as [z|]; [|by right].
  rewrite TIER_WEIGHTS_lookup.
  destruct (decide (z = 1)); [by left|]. right. by destruct (decide (z = 2)).
Qed.

Lemma signals_between (now : Z) (item : Entry.t) (feed : Feed.t)
    (cnt : gmap string Z) :
  (inject_Z (-10) <= inject_Z (tier_weight feed) + other_signals now item cnt)%Q
  /\ ((forall p, Entry._published_dt item = Some p -> p <= now) ->
      (inject_Z (tier_weight feed) + other_signals now item cnt <= inject_Z 180)%Q).
Proof.
  unfold other_signals.
  pose proof (recency_nonneg now (Entry._published_dt item)) as Hr0.
  split.
  - destruct (tier_weight_values feed) as [-> | ->];
      destruct (multi_source item cnt), (has_metadata_tag item),
        (has_breaking_title item), (has_noise item);
      unfold bump, MULTI_SOURCE_BUMP, METADATA_BUMP, TITLE_PATTERN_BUMP,
        KEYWORD_PENALTY, inject_Z; lra.
  - intros Hp.
    assert (Hr50 : (recency now (Entry._published_dt item) <= 50)%Q).
    { destruct (Entry._published_dt item) as [p|]; [|discriminate].
      apply recency_le_max. by apply Hp. }
    destruct (tier_weight_values feed) as [-> | ->];
      destruct (multi_source item cnt), (has_metadata_tag item),
        (has_breaking_title item), (has_noise item);
      unfold bump, MULTI_SOURCE_BUMP, METADATA_BUMP, TITLE_PATTERN_BUMP,
        KEYWORD_PENALTY, inject_Z; lra.
Qed.

(** X12: a score is never below -10, and never above 180 for an entry
    without a date or dated no later than the clock reading. *)
Theorem score_range (now : Z) (item : Entry.t) (feed : Feed.t)
    (cnt : gmap string Z) :
  (-10 <= score_item now item feed cnt)%Q
  /\ ((forall p, Entry._published_dt item = Some p -> p <= now) ->
      (score_item now item feed cnt <= 180)%Q).
Proof.
  rewrite score_item_sum.
  destruct (signals_between now item feed cnt) as [Hlow Hup].
  set (x := (inject_Z (tier_weight feed) + other_signals now item cnt)%Q) in *.
  split.
  - assert (Hhi : (x <= inject_Z (Qceiling x))%Q) by apply Qle_ceiling.
    exact (proj1 (round2_between (-10) (Qceiling x) x (conj Hlow Hhi))).
  - intros Hp.
    exact (proj2 (round2_between (-10) 180 x (conj Hlow (Hup Hp)))).
Qed.

Lemma score_range_witness :
  (score_item 0 (entry_at "http://x" None) (feed_of 1 1) ∅ <= 180)%Q.
Proof.
  apply (score_range 0 (entry_at "http://x" None) (feed_of 1 1) ∅).
  intros p Hp. discriminate Hp.
Defined.

(** *** The score over time *)

Lemma round2_mono (x y : Q) : (x <= y)%Q -> (round2 x <= round2 y)%Q.
Proof.
  intros Hxy. unfold round2.
  set (x' := (x * 100)%Q). set (y' := (y * 100)%Q).
  assert (Hxy' : (x' <= y')%Q) by (by apply Qmult_le_compat_r).
  pose proof (Qfloor_resp_le _ _ Hxy') as Hf.
  set (fx := Qfloor x') in *. set (fy := Qfloor y') in *.
  assert (Hn : match (x' - inject_Z fx ?= 1 # 2)%Q with
               | Lt => fx
               | Gt => fx + 1
               | Eq => if Z.even fx then fx else fx + 1
               end
               <= match (y' - inject_Z fy ?= 1 # 2)%Q with
                  | Lt => fy
                  | Gt => fy + 1
                  | Eq => if Z.even fy then fy else fy + 1
                  end).
  { destruct (decide (fx = fy)) as [Heq|Hne].
    - rewrite <- Heq.
      assert (Hr : (x' - inject_Z fx <= y' - inject_Z fx)%Q).
      { apply Qplus_le_l with (z := inject_Z fx). by ring_simplify. }
      destruct (x' - inject_Z fx ?= 1 # 2)%Q eqn:Hx.
      + apply Qeq_alt in Hx.
        destruct (y' - inject_Z fx ?= 1 # 2)%Q eqn:Hy.
        * lia.
        * apply Qlt_alt in Hy. rewrite Hx in Hr.
          exfalso. by apply (Qlt_not_le _ _ Hy).
        * destruct (Z.even fx); lia.
      + destruct (y' - inject_Z fx ?= 1 # 2)%Q; [destruct (Z.even fx)| |]; lia.
      + apply Qgt_alt in Hx.
        destruct (y' - inject_Z fx ?= 1 # 2)%Q eqn:Hy.
        * apply Qeq_alt in Hy. rewrite Hy in Hr.
          exfalso. by apply (Qlt_not_le _ _ Hx).
        * apply Qlt_alt in Hy.
          exfalso. apply (Qlt_not_le _ _ Hx). apply Qlt_le_weak.
          by apply Qle_lt_trans with (y' - inject_Z fx)%Q.
        * lia.
    - assert (fx + 1 <= fy) by lia.
      destruct (x' - inject_Z fx ?= 1 # 2)%Q, (y' - inject_Z fy ?= 1 # 2)%Q;
        try destruct (Z.even fx); try destruct (Z.even fy); lia. }
  revert Hn.
  generalize (match (x' - inject_Z fx ?= 1 # 2)%Q with
              | Lt => fx
              | Gt => fx + 1
              | Eq => if Z.even fx then fx else fx + 1
              end)
             (match (y' - inject_Z fy ?= 1 # 2)%Q with
              | Lt => fy
              | Gt => fy + 1
              | Eq => if Z.even fy then fy else fy + 1
              end).
  intros n m Hnm. unfold Qle. cbn [Qnum Qden]. lia.
Qed.

(** X13: the score of an entry does not rise as the clock advances, the
    entry, the feed and the counts being the same. *)
Theorem score_never_rises (now1 now2 : Z) (item : Entry.t) (feed : Feed.t)
    (cnt : gmap string Z) :
  now1 <= now2 ->
  (score_item now2 item feed cnt <= score_item now1 item feed cnt)%Q.
Proof.
  intros Hnow. rewrite !score_item_sum. apply round2_mono.
  apply Qplus_le_r. unfold other_signals.
  repeat apply Qplus_le_l.
  destruct (Entry._published_dt item) as [p|]; [|apply Qle_refl].
  apply recency_antitone. lia.
Qed.

Lemma score_never_rises_witness :
  (score_item (DateTime.days 2)
     (Entry.set_published_dt (Some 0%Z) (entry_at "http://x" None)) (feed_of 1 1) ∅
   <= score_item (DateTime.days 1)
        (Entry.set_published_dt (Some 0%Z) (entry_at "http://x" None)) (feed_of 1 1) ∅)%Q.
Proof.
  apply (score_never_rises (DateTime.days 1) (DateTime.days 2)). vm_compute.
  discriminate.
Defined.

(** *** The summary *)

(** X14: the summary of an entry has 500 characters at most; it does not
    start with white space and its only white space is single spaces. *)
Theorem summary_is_short_and_tidy (entry : Entry.t) :
  (String.length (summarise entry) <= 500)%nat
  /\ tidy (summarise entry) = true.
Proof.
  unfold summarise. split; [apply slice_to_length|].
  apply slice_to_tidy. unfold PyStr.strip. apply rstrip_tidy, lstrip_tidy.
  apply sub_spaces_from_tidy.
Qed.

(** X15: no tag is left in the summary of an entry: removing the tags
    once more changes nothing. *)
Theorem summary_has_no_tag (entry : Entry.t) :
  tagless (summarise entry) = true
  /\ PyStr.sub_tags (summarise entry) = summarise entry.
Proof.
  assert (H : tagless (summarise entry) = true).
  { unfold summarise. apply slice_to_keeps_tagless.
    unfold PyStr.strip. apply rstrip_keeps_tagless, lstrip_keeps_tagless.
    apply sub_spaces_from_keeps_tagless. apply sub_tags_from_tagless.
    discriminate. }
  split; [exact H|]. by apply tagless_fixed.
Qed.

End FetcherFacts.

(** ** Further properties of digest.py *)

Module DigestFacts.
Import Digest Samples DigestText DigestNotions DigestProofs TextFacts.

(** *** [write_digest] *)

Lemma omap_length_le {A B} (f : A -> option B) (l : list A) :
  (length (omap f l) <= length l)%nat.
Proof.
  induction l as [|x l IH]; [done|].
  change (omap f (x :: l))
    with (match f x with Some y => y :: omap f l | None => omap f l end).
  destruct (f x); cbn [length]; lia.
Qed.

Section WithRepr.
Variable repr : pyval -> string.

Lemma validate_picks_trace items raw_picks :
  validate_picks repr items raw_picks
  = Some (omap (kept repr items) raw_picks, omap (warning repr items) raw_picks).
Proof.
  induction raw_picks as [|pick rest IH]; [done|].
  change (omap (kept repr items) (pick :: rest))
    with (match kept repr items pick with
          | Some y => y :: omap (kept repr items) rest
          | None => omap (kept repr items) rest
          end).
  change (omap (warning repr items) (pick :: rest))
    with (match warning repr items pick with
          | Some y => y :: omap (warning repr items) rest
          | None => omap (warning repr items) rest
          end).
  cbn [validate_picks]. unfold kept at 1, warning at 1.
  pose proof (visit_pick_no_error repr items pick) as Hne.
  destruct (visit_pick repr items pick) as [p| |v|]; try done; by rewrite IH.
Qed.

Lemma kept_or_warned items pick :
  match pick with
  | VDict _ =>
      (is_Some (kept repr items pick) /\ warning repr items pick = None)
      \/ (kept repr items pick = None /\ is_Some (warning repr items pick))
  | _ => kept repr items pick = None /\ warning repr items pick = None
  end.
Proof.
  pose proof (visit_pick_no_error repr items pick) as Hne.
  unfold kept, warning.
  destruct pick as [s|l|d]; [done|done|].
  destruct (visit_pick repr items (VDict d)) as [p| |v|] eqn:Hv; try done.
  - left. split; [by eexists|done].
  - unfold visit_pick in Hv. repeat case_match; discriminate.
  - right. split; [done|by eexists].
Qed.

Lemma kept_warned_count items raw_picks :
  (length (omap (kept repr items) raw_picks)
   + length (omap (warning repr items) raw_picks)
   = length (filter (fun v => is_dict v = true) raw_picks))%nat.
Proof.
  induction raw_picks as [|pick rest IH]; [done|].
  change (omap (kept repr items) (pick :: rest))
    with (match kept repr items pick with
          | Some y => y :: omap (kept repr items) rest
          | None => omap (kept repr items) rest
          end).
  change (omap (warning repr items) (pick :: rest))
    with (match warning repr items pick with
          | Some y => y :: omap (warning repr items) rest
          | None => omap (warning repr items) rest
          end).
  pose proof (kept_or_warned items pick) as H.
  destruct pick as [s|l|d].
  - destruct H as [-> ->]. by rewrite filter_cons_False.
  - destruct H as [-> ->]. by rewrite filter_cons_False.
  - rewrite filter_cons_True by done. cbn [length].
    destruct H as [[[p ->] ->] | [-> [w ->]]]; cbn [length]; lia.
Qed.

(** X16: the trace of [write_digest] is one warning for each pick
    dictionary whose index is not valid, in the order of the picks, and
    then the insertion; a pick dictionary is either kept or reported,
    never both, and a pick that is no dictionary is dropped without a
    warning. *)
Theorem every_pick_is_kept_or_reported
    (now : Z) (user_id : string) (items : list Row.t)
    (result : gmap string pyval) :
  let raw_picks := raw_picks_of result in
  let picks := omap (kept repr items) raw_picks in
  let warnings := omap (warning repr items) raw_picks in
  write_digest repr now user_id items result
  = Some (warnings ++ [InsertDigest (digest_row now user_id result picks)])
  /\ (length picks + length warnings
      = length (filter (fun v => is_dict v = true) raw_picks))%nat
  /\ (forall pick, is_dict pick = false ->
        kept repr items pick = None /\ warning repr items pick = None)
  /\ (forall d, kept repr items (VDict d) = None ->
        warning repr items (VDict d)
        = Some (SkippingPick (default (VScalar SNone) (d !! "index"%string)))).
Proof.
  intros raw_picks picks warnings. repeat split.
  - unfold write_digest. fold raw_picks. by rewrite validate_picks_trace.
  - apply kept_warned_count.
  - pose proof (kept_or_warned items pick) as Hp.
    destruct pick as [s|l|d]; [apply Hp | apply Hp | discriminate].
  - pose proof (kept_or_warned items pick) as Hp.
    destruct pick as [s|l|d]; [apply Hp | apply Hp | discriminate].
  - intros d. unfold kept, warning, visit_pick.
    pose proof (visit_pick_no_error repr items (VDict d)) as Hne.
    unfold visit_pick in Hne.
    repeat case_match; try done.
Qed.

Lemma kept_names_item items pick p :
  kept repr items pick = Some p ->
  (exists row, row ∈ items /\ Pick.item_id p = Row.id row)
  /\ (String.length (Pick.reason p) <= 500)%nat.
Proof.
  unfold kept, visit_pick. destruct pick as [s|l|d]; try done.
  destruct (PyVal.as_int _) as [i|]; [|done].
  destruct (_ && _) eqn:Hr; [|done].
  destruct (subscript items (i - 1)) as [row|] eqn:Hrow; [|done].
  intros [= <-]. cbn [Pick.item_id Pick.reason]. split.
  - exists row. split; [|done].
    unfold subscript in Hrow. repeat case_match; try done;
      by eapply list_elem_of_lookup_2.
  - apply (slice_to_bound 500).
Qed.

(** X17: every pick of the digest row names an item of the list shown,
    with a reason of 500 characters at most; there are no more picks
    than the response gave. *)
Theorem stored_picks_name_shown_items
    (now : Z) (user_id : string) (items : list Row.t)
    (result : gmap string pyval) (tr : list Event) (row : DigestRow.t) :
  write_digest repr now user_id items result = Some tr ->
  InsertDigest row ∈ tr ->
  (length (DigestRow.picks row) <= length (raw_picks_of result))%nat
  /\ forall p, p ∈ DigestRow.picks row ->
       (exists r, r ∈ items /\ Pick.item_id p = Row.id r)
       /\ (String.length (Pick.reason p) <= 500)%nat.
Proof.
  unfold write_digest. rewrite validate_picks_trace. cbn.
  intros [= <-] Hin.
  apply elem_of_app in Hin as [Hin | Hin%list_elem_of_singleton].
  - apply list_elem_of_omap in Hin as (pick & _ & Hw).
    unfold warning in Hw. repeat case_match; discriminate.
  - injection Hin as ->. cbn [DigestRow.picks]. split.
    + apply omap_length_le.
    + intros p (pick & _ & Hp)%list_elem_of_omap. by eapply kept_names_item.
Qed.

Lemma in_range_kept items d :
  in_range (length items) d = true -> is_Some (kept repr items (VDict d)).
Proof.
  unfold in_range, index_of, kept.
  destruct (d !! "index"%string) as [v|] eqn:Hd; [|done].
  destruct (PyVal.as_int v) as [i|] eqn:Hv; [|done].
  intros [H1%Z.leb_le H2%Z.leb_le]%andb_true_iff.
  destruct (visit_pick_accepts repr items d v i Hd Hv) as (row & _ & ->); [lia|].
  by eexists.
Qed.

Lemma all_in_range_kept items ds :
  Forall (fun d => in_range (length items) d = true) ds ->
  length (omap (kept repr items) (VDict <$> ds)) = length ds
  /\ omap (warning repr items) (VDict <$> ds) = [].
Proof.
  induction 1 as [|d ds Hd _ [IH1 IH2]]; [done|].
  rewrite fmap_cons.
  change (omap (kept repr items) (VDict d :: (VDict <$> ds)))
    with (match kept repr items (VDict d) with
          | Some y => y :: omap (kept repr items) (VDict <$> ds)
          | None => omap (kept repr items) (VDict <$> ds)
          end).
  change (omap (warning repr items) (VDict d :: (VDict <$> ds)))
    with (match warning repr items (VDict d) with
          | Some y => y :: omap (warning repr items) (VDict <$> ds)
          | None => omap (warning repr items) (VDict <$> ds)
          end).
  pose proof (in_range_kept items d Hd) as [p Hp].
  pose proof (kept_or_warned items (VDict d)) as [[_ Hw] | [Hk _]].
  - rewrite Hp, Hw. cbn [length]. by rewrite IH1, IH2.
  - rewrite Hp in Hk. discriminate.
Qed.

(** X18: picks whose indices are all valid are all kept, however many
    they are and whether or not two of them name the same item:
    [MAX_PICKS] does not bound the picks of a digest. *)
Theorem valid_picks_are_all_kept
    (now : Z) (user_id : string) (items : list Row.t)
    (result : gmap string pyval) (ds : list (gmap string pyval)) :
  result !! "picks"%string = Some (VList (VDict <$> ds)) ->
  Forall (fun d => in_range (length items) d = true) ds ->
  exists picks,
    write_digest repr now user_id items result
    = Some [InsertDigest (digest_row now user_id result picks)]
    /\ length picks = length ds.
Proof.
  intros Hr Hds.
  exists (omap (kept repr items) (VDict <$> ds)).
  destruct (all_in_range_kept items ds Hds) as [Hlen Hw].
  split; [|done].
  unfold write_digest, raw_picks_of. rewrite Hr, validate_picks_trace, Hw.
  reflexivity.
Qed.

End WithRepr.

Lemma every_pick_is_kept_or_reported_witness :
  kept repr_blank [row_of 7] (VScalar (SStr "1")) = None
  /\ warning repr_blank [row_of 7] (VScalar (SStr "1")) = None.
Proof.
  destruct (every_pick_is_kept_or_reported repr_blank 0 "user" [row_of 7] ∅)
    as (_ & _ & H & _).
  apply H. reflexivity.
Defined.

Lemma stored_picks_name_shown_items_witness :
  (length [{| Pick.item_id := SInt 7; Pick.reason := "" |}]
   <= length (raw_picks_of
                {[ "picks"%string :=
                     VList [VDict {[ "index"%string := VScalar (SInt 1) ]};
                            VDict {[ "index"%string := VScalar (SInt 3) ]}] ]}))%nat.
Proof.
  pose (result := ({[ "picks"%string :=
                     VList [VDict {[ "index"%string := VScalar (SInt 1) ]};
                            VDict {[ "index"%string := VScalar (SInt 3) ]}] ]}
                   : gmap string pyval)).
  pose (row := digest_row 0 "user" result
                 [{| Pick.item_id := SInt 7; Pick.reason := "" |}]).
  refine (proj1 (stored_picks_name_shown_items repr_blank 0 "user"
                   [row_of 7; row_of 8] result
                   [SkippingPick (VScalar (SInt 3)); InsertDigest row] row _ _)).
  - vm_compute. reflexivity.
  - repeat constructor.
Defined.

Lemma valid_picks_are_all_kept_witness :
  let pick := ({[ "index"%string := VScalar (SInt 1) ]} : gmap string pyval) in
  let result := ({[ "picks"%string := VList (VDict <$> replicate 6 pick) ]}
                 : gmap string pyval) in
  exists picks,
    write_digest repr_blank 0 "user" [row_of 7] result
    = Some [InsertDigest (digest_row 0 "user" result picks)]
    /\ length picks = 6%nat.
Proof.
  intros pick result.
  apply (valid_picks_are_all_kept repr_blank 0 "user" [row_of 7] result
           (replicate 6 pick)).
  - vm_compute. reflexivity.
  - repeat constructor.
Defined.

(** *** [sanitise_text] *)

Lemma sub_control_clean text : no_control (sub_control text) = true.
Proof.
  induction text as [|c r IH]; [done|]. cbn [sub_control].
  destruct (is_control c) eqn:Hc; [done|]. cbn [no_control]. by rewrite Hc, IH.
Qed.

Lemma sub_control_fixed text : no_control text = true -> sub_control text = text.
Proof.
  induction text as [|c r IH]; [done|]. cbn [no_control sub_control].
  intros [Hc%negb_true_iff Hr]%andb_true_iff. by rewrite Hc, IH.
Qed.

Lemma sub_control_length text :
  (String.length (sub_control text) <= String.length text)%nat.
Proof.
  induction text as [|c r IH]; [done|]. cbn [sub_control].
  destruct (is_control c); cbn [String.length]; lia.
Qed.

Lemma slice_to_clean n s : no_control s = true -> no_control (PyStr.slice_to n s) = true.
Proof.
  revert s. induction n as [|n IH]; intros [|c r]; try done.
  cbn [no_control PyStr.slice_to]. intros [Hc Hr]%andb_true_iff.
  by rewrite Hc, IH.
Qed.

Lemma slice_to_all n s : (String.length s <= n)%nat -> PyStr.slice_to n s = s.
Proof.
  revert s. induction n as [|n IH]; intros [|c s]; cbn; try done; try lia.
  intros H. rewrite IH; [done|lia].
Qed.

Lemma slice_upto_clean n s : no_control s = true -> no_control (slice_upto n s) = true.
Proof. intros H. unfold slice_upto. destruct (0 <=? n); by apply slice_to_clean. Qed.

Lemma sanitise_text_bounds (text : string) (max_chars : Z) :
  no_control (sanitise_text text max_chars) = true
  /\ (String.length (sanitise_text text max_chars) <= String.length text)%nat
  /\ (0 <= max_chars ->
      Z.of_nat (String.length (sanitise_text text max_chars)) <= max_chars).
Proof.
  unfold sanitise_text. repeat split.
  - apply slice_upto_clean, sub_control_clean.
  - pose proof (sub_control_length text). unfold slice_upto.
    destruct (0 <=? max_chars);
      match goal with
      | |- context [PyStr.slice_to ?n ?s] => pose proof (slice_to_bound n s)
      end; lia.
  - intros Hn. unfold slice_upto.
    replace (0 <=? max_chars) with true by (symmetry; by apply Z.leb_le).
    pose proof (slice_to_bound (Z.to_nat max_chars) (sub_control text)). lia.
Qed.

(** X19: the text [sanitise_text] returns holds none of the control
    characters, is not longer than the text given and, for a limit that
    is not negative, has [max_chars] characters at most. *)
Theorem sanitised_text_is_clean_and_short (text : string) (max_chars : Z) :
  no_control (sanitise_text text max_chars) = true
  /\ (String.length (sanitise_text text max_chars) <= String.length text)%nat
  /\ (0 <= max_chars ->
      Z.of_nat (String.length (sanitise_text text max_chars)) <= max_chars).
Proof. apply sanitise_text_bounds. Qed.

Lemma sanitised_text_is_clean_and_short_witness :
  Z.of_nat (String.length (sanitise_text "breaking news" 8)) <= 8.
Proof.
  apply (sanitised_text_is_clean_and_short "breaking news" 8). lia.
Defined.

(** X20: for a limit that is not negative, sanitising a second time
    changes nothing, and a text without control characters that fits the
    limit is returned as it is. *)
Theorem sanitise_text_idempotent (text : string) (max_chars : Z) :
  0 <= max_chars ->
  sanitise_text (sanitise_text text max_chars) max_chars
  = sanitise_text text max_chars
  /\ (no_control text = true ->
      Z.of_nat (String.length text) <= max_chars ->
      sanitise_text text max_chars = text).
Proof.
  intros Hn.
  assert (Hfix : forall t, no_control t = true ->
                   Z.of_nat (String.length t) <= max_chars ->
                   sanitise_text t max_chars = t).
  { intros t Ht Hlen. unfold sanitise_text, slice_upto.
    replace (0 <=? max_chars) with true by (symmetry; by apply Z.leb_le).
    rewrite (sub_control_fixed _ Ht). apply slice_to_all. lia. }
  split; [|by apply Hfix].
  destruct (sanitise_text_bounds text max_chars) as (Hc & _ & Hl).
  apply Hfix; [done | by apply Hl].
Qed.

Lemma sanitise_text_idempotent_witness :
  sanitise_text (sanitise_text "breaking news" 8) 8 = sanitise_text "breaking news" 8.
Proof.
  apply (sanitise_text_idempotent "breaking news" 8). lia.
Defined.

End DigestFacts.

(** ** Properties of the run of digest.py *)

Module DigestRunFacts.
Import Digest Samples Users DigestNotions DigestProofs DigestFacts DigestMain DigestSamples.

(** *** [fetch_users] *)

Lemma profile_map_lookup (profiles : list Profile.t) (uid : string) :
  profile_map profiles !! uid
  = last (filter (fun p => Profile.user_id p = uid) profiles).
Proof.
  unfold profile_map.
  induction profiles as [|p l IH] using rev_ind; [done|].
  rewrite foldl_app, filter_app. cbn [foldl].
  destruct (decide (Profile.user_id p = uid)) as [Heq|Hne].
  - rewrite Heq, lookup_insert_eq.
    rewrite filter_cons_True by done. rewrite filter_nil. by rewrite last_snoc.
  - rewrite lookup_insert_ne by done.
    rewrite filter_cons_False by done. rewrite filter_nil, app_nil_r. exact IH.
Qed.

Lemma fetch_users_map (feed_rows : list FeedRow.t) (profiles : list Profile.t) :
  fetch_users feed_rows profiles
  = (fun uid => {| User.user_id := uid;
                   User.profile := profile_map profiles !! uid |})
      <$> elements (list_to_set (FeedRow.user_id <$> feed_rows) : gset string).
Proof. unfold fetch_users. by destruct (elements _). Qed.

Lemma fetch_users_ids (feed_rows : list FeedRow.t) (profiles : list Profile.t) :
  User.user_id <$> fetch_users feed_rows profiles
  = elements (list_to_set (FeedRow.user_id <$> feed_rows) : gset string).
Proof.
  rewrite fetch_users_map, <- list_fmap_compose.
  apply list_fmap_id.
Qed.

Lemma fetch_users_NoDup (feed_rows : list FeedRow.t) (profiles : list Profile.t) :
  NoDup (User.user_id <$> fetch_users feed_rows profiles).
Proof. rewrite fetch_users_ids. apply NoDup_elements. Qed.

(** X21: [fetch_users] lists every user who has a row among the active
    feeds, and lists each of them once, whatever the number of their
    feeds. *)
Theorem each_user_is_listed_once
    (feed_rows : list FeedRow.t) (profiles : list Profile.t) :
  NoDup (User.user_id <$> fetch_users feed_rows profiles)
  /\ forall uid, uid ∈ User.user_id <$> fetch_users feed_rows profiles
                 <-> uid ∈ FeedRow.user_id <$> feed_rows.
Proof.
  split; [apply fetch_users_NoDup|].
  intros uid. rewrite fetch_users_ids, elem_of_elements.
  apply elem_of_list_to_set.
Qed.

(** X22: the profile listed with a user is the last profile row that
    carries the identity of the user, and the empty profile when no row
    does. *)
Theorem user_profile_is_last_row
    (feed_rows : list FeedRow.t) (profiles : list Profile.t) (user : User.t) :
  user ∈ fetch_users feed_rows profiles ->
  User.profile user
  = last (filter (fun p => Profile.user_id p = User.user_id user) profiles).
Proof.
  rewrite fetch_users_map. intros (uid & -> & _)%list_elem_of_fmap.
  cbn [User.user_id User.profile]. apply profile_map_lookup.
Qed.

Lemma user_profile_is_last_row_witness :
  let p1 := {| Profile.user_id := "u1"; Profile.display_name := SStr "Ann";
               Profile.interests := SNone |} in
  let p2 := {| Profile.user_id := "u1"; Profile.display_name := SStr "Anna";
               Profile.interests := SNone |} in
  User.profile {| User.user_id := "u1"; User.profile := Some p2 |}
  = last (filter (fun p => Profile.user_id p = "u1"%string) [p1; p2]).
Proof.
  intros p1 p2.
  apply (user_profile_is_last_row
           [{| FeedRow.user_id := "u1" |}; {| FeedRow.user_id := "u1" |}]
           [p1; p2] {| User.user_id := "u1"; User.profile := Some p2 |}).
  vm_compute. constructor.
Defined.

(** *** [main] *)

Lemma processed_app tr1 tr2 : processed (tr1 ++ tr2) = processed tr1 ++ processed tr2.
Proof. apply omap_app. Qed.

Lemma digests_app tr1 tr2 : digests (tr1 ++ tr2) = digests tr1 ++ digests tr2.
Proof. apply omap_app. Qed.

Lemma processed_in_write_digest (ev : list Digest.Event) : processed (InWriteDigest <$> ev) = [].
Proof. induction ev as [|e ev IH]; [done|]. exact IH. Qed.

Lemma done_not_in_write_digest (ev : list Digest.Event) : Log INFO Done ∉ InWriteDigest <$> ev.
Proof. by intros (e & ? & _)%list_elem_of_fmap. Qed.

Section WithRepr.
Variable repr : pyval -> string.

Lemma write_digest_trace now user_id its d :
  write_digest repr now user_id its d
  = Some (omap (warning repr its) (raw_picks_of d)
          ++ [InsertDigest
                (digest_row now user_id d
                   (omap (kept repr its) (raw_picks_of d)))]).
Proof. unfold write_digest. by rewrite validate_picks_trace. Qed.

Lemma digests_in_write_digest now user_id its d ev :
  write_digest repr now user_id its d = Some ev ->
  digests (InWriteDigest <$> ev)
  = [digest_row now user_id d (omap (kept repr its) (raw_picks_of d))].
Proof.
  rewrite write_digest_trace. intros [= <-].
  rewrite fmap_app, digests_app.
  replace (digests (InWriteDigest <$> omap (warning repr its) (raw_picks_of d)))
    with (@nil DigestRow.t); [done|].
  symmetry. induction (raw_picks_of d) as [|pick rest IH]; [done|].
  change (omap (warning repr its) (pick :: rest))
    with (match warning repr its pick with
          | Some y => y :: omap (warning repr its) rest
          | None => omap (warning repr its) rest
          end).
  unfold warning at 1. destruct (visit_pick repr its pick); exact IH.
Qed.

Lemma digest_row_picks its d p :
  p ∈ omap (kept repr its) (raw_picks_of d) ->
  exists it, it ∈ its /\ Pick.item_id p = Row.id it.
Proof.
  intros (pick & _ & Hp)%list_elem_of_omap.
  by destruct (kept_names_item repr its pick p Hp).
Qed.

(** What the body of the loop does for one user. *)
Lemma process_shape user a :
  snd (process repr user a) = negb (raises a)
  /\ processed (fst (process repr user a)) = [name_of user]
  /\ (Log INFO Done ∉ fst (process repr user a))
  /\ (forall row, row ∈ digests (fst (process repr user a)) ->
        DigestRow.user_id row = User.user_id user
        /\ digest_due a = true
        /\ exists its, items a = Some its
           /\ forall p, p ∈ DigestRow.picks row ->
                exists it, it ∈ its /\ Pick.item_id p = Row.id it)
  /\ (raises a = false ->
      DigestRow.user_id <$> digests (fst (process repr user a))
      = if digest_due a then [User.user_id user] else []).
Proof.
  unfold process, raises, digest_due, result_of.
  destruct (items a) as [[|it its]|] eqn:Hitems; cbv zeta.
  1,3: cbn; repeat split; try done; set_solver.
  destruct (starred a) as [st|].
  2: cbn; repeat split; try done; set_solver.
  destruct (prompt a) as [pr|].
  2: cbn; repeat split; try done; set_solver.
  destruct (call_claude (reply a)) as [ev result] eqn:Hcall.
  assert (Hev : processed ev = [] /\ digests ev = [] /\ (Log INFO Done ∉ ev)).
  { unfold call_claude in Hcall.
    destruct (reply a); injection Hcall as <- <-; cbn; set_solver. }
  destruct Hev as (Hp & Hd & Hdone).
  cbn [snd].
  destruct (truthy result) eqn:Htruthy; cbn [negb].
  2:{ cbn [fst snd]. rewrite !processed_app, !digests_app, Hp, Hd.
      cbn. repeat split; try done; set_solver. }
  destruct result as [s|l|d].
  1,2: cbn [fst snd]; rewrite !processed_app, !digests_app, Hp, Hd;
       cbn; repeat split; try done; set_solver.
  rewrite write_digest_trace.
  set (W := omap _ _ ++ _).
  assert (HW : digests (InWriteDigest <$> W)
               = [digest_row (now a) (User.user_id user) d
                    (omap (kept repr (it :: its)) (raw_picks_of d))]).
  { apply (digests_in_write_digest (now a) (User.user_id user)).
    apply write_digest_trace. }
  assert (Hrow : forall row,
            row ∈ [digest_row (now a) (User.user_id user) d
                     (omap (kept repr (it :: its)) (raw_picks_of d))] ->
            DigestRow.user_id row = User.user_id user
            /\ true = true
            /\ exists its0, Some (it :: its) = Some its0
               /\ forall p, p ∈ DigestRow.picks row ->
                    exists it0, it0 ∈ its0 /\ Pick.item_id p = Row.id it0).
  { intros row ->%list_elem_of_singleton. split; [done|]. split; [done|].
    exists (it :: its). split; [done|]. apply digest_row_picks. }
  destruct (inserted a); cbn [fst snd negb andb];
    rewrite !processed_app, !digests_app, Hp, Hd, HW, processed_in_write_digest;
    (split; [done|]); (split; [done|]);
    (split; [pose proof (done_not_in_write_digest W); set_solver|]);
    (split; [exact Hrow|]); done.
Qed.

Lemma process_users_quiet answers users :
  (forall user, user ∈ users -> raises (answers (User.user_id user)) = false) ->
  snd (process_users repr answers users) = true
  /\ processed (fst (process_users repr answers users)) = name_of <$> users
  /\ DigestRow.user_id <$> digests (fst (process_users repr answers users))
     = User.user_id
         <$> filter (fun u => digest_due (answers (User.user_id u)) = true) users.
Proof.
  induction users as [|user rest IH]; intros Hq; [done|].
  destruct IH as (IH1 & IH2 & IH3); [intros u Hu; apply Hq; set_solver|].
  pose proof (process_shape user (answers (User.user_id user)))
    as (H1 & H2 & _ & _ & H5).
  rewrite (Hq user) in H1 by set_solver. specialize (H5 (Hq user ltac:(set_solver))).
  cbn [process_users].
  destruct (process repr user (answers (User.user_id user))) as [ev ok].
  cbn [fst snd negb] in *. subst ok.
  destruct (process_users repr answers rest) as [ev' ok'].
  cbn [fst snd] in *. subst ok'.
  rewrite processed_app, digests_app, fmap_app, H2, IH2, H5, IH3.
  split; [done|]. split; [done|].
  destruct (digest_due (answers (User.user_id user))) eqn:Hdue.
  - by rewrite filter_cons_True.
  - rewrite filter_cons_False; [done|]. by rewrite Hdue.
Qed.

Lemma process_users_raise answers before user after :
  (forall u, u ∈ before -> raises (answers (User.user_id u)) = false) ->
  raises (answers (User.user_id user)) = true ->
  process_users repr answers (before ++ user :: after)
  = (fst (process_users repr answers before)
     ++ fst (process repr user (answers (User.user_id user))), false).
Proof.
  intros Hq Hr.
  induction before as [|b before IH].
  - pose proof (process_shape user (answers (User.user_id user))) as (H1 & _).
    rewrite Hr in H1. cbn [app process_users fst].
    destruct (process repr user (answers (User.user_id user))) as [ev ok].
    cbn [fst snd negb] in *. by subst ok.
  - pose proof (process_shape b (answers (User.user_id b))) as (H1 & _).
    rewrite (Hq b) in H1 by set_solver.
    rewrite <- app_comm_cons. cbn [process_users].
    destruct (process repr b (answers (User.user_id b))) as [ev ok].
    cbn [fst snd negb] in *. subst ok.
    rewrite IH by (intros u Hu; apply Hq; set_solver).
    destruct (process_users repr answers before) as [ev' ok'].
    cbn [fst]. by rewrite app_assoc.
Qed.

Lemma process_users_shape answers users :
  (Log INFO Done ∉ fst (process_users repr answers users))
  /\ forall row, row ∈ digests (fst (process_users repr answers users)) ->
       exists user its,
         user ∈ users
         /\ DigestRow.user_id row = User.user_id user
         /\ digest_due (answers (User.user_id user)) = true
         /\ items (answers (User.user_id user)) = Some its
         /\ forall p, p ∈ DigestRow.picks row ->
              exists it, it ∈ its /\ Pick.item_id p = Row.id it.
Proof.
  induction users as [|user rest [IH1 IH2]].
  { cbn. split; [set_solver|]. intros row Hrow. by apply elem_of_nil in Hrow. }
  pose proof (process_shape user (answers (User.user_id user)))
    as (_ & _ & H3 & H4 & _).
  cbn [process_users].
  destruct (process repr user (answers (User.user_id user))) as [ev ok].
  cbn [fst snd] in *.
  assert (Hhead : forall row, row ∈ digests ev ->
            exists user0 its,
              user0 ∈ user :: rest
              /\ DigestRow.user_id row = User.user_id user0
              /\ digest_due (answers (User.user_id user0)) = true
              /\ items (answers (User.user_id user0)) = Some its
              /\ forall p, p ∈ DigestRow.picks row ->
                   exists it, it ∈ its /\ Pick.item_id p = Row.id it).
  { intros row Hrow. destruct (H4 row Hrow) as (Hid & Hdue & its & Hits & Hp).
    exists user, its. repeat split; try done. set_solver. }
  destruct ok; [|by split].
  destruct (process_users repr answers rest) as [ev' ok'].
  cbn [fst] in *. split; [set_solver|].
  intros row. rewrite digests_app. intros [Hrow|Hrow]%elem_of_app.
  - by apply Hhead.
  - destruct (IH2 row Hrow) as (u & its & Hu & Hrest).
    exists u, its. split; [set_solver|done].
Qed.

(** X23: a row handed to the [digests] table belongs to a user of the
    list, who has recent items and for whom [call_claude] returned a
    value that is not falsy, and every pick of the row names one of the
    items of that user. *)
Theorem digest_rows_come_from_own_items (r : Run) (row : DigestRow.t) :
  row ∈ digests (fst (main repr r)) ->
  exists user its,
    user ∈ fetch_users (feed_rows r) (profiles r)
    /\ DigestRow.user_id row = User.user_id user
    /\ items (answers r (User.user_id user)) = Some its
    /\ its <> []
    /\ truthy (result_of (answers r (User.user_id user))) = true
    /\ forall p, p ∈ DigestRow.picks row ->
         exists it, it ∈ its /\ Pick.item_id p = Row.id it.
Proof.
  unfold main.
  pose proof (process_users_shape (answers r)
                (fetch_users (feed_rows r) (profiles r))) as [_ H].
  destruct (process_users repr (answers r) _) as [ev ok]. cbn [fst] in H.
  intros Hrow.
  assert (Hin : row ∈ digests ev).
  { destruct ok; cbn [fst] in Hrow; rewrite !digests_app in Hrow;
      cbn in Hrow; set_solver. }
  destruct (H row Hin) as (user & its & Hu & Hid & Hdue & Hits & Hp).
  exists user, its. unfold digest_due in Hdue. rewrite Hits in Hdue.
  destruct its as [|it its]; [done|]. by repeat split.
Qed.

(** X24: when no call raises an exception that [main] does not catch,
    the run returns after the record [Done]; every user of the list is
    processed, in order, and a digest row is handed over for exactly the
    users who have recent items and a reply that is not falsy: a user
    without items or a failed request stops nothing. *)
Theorem run_returns_when_nothing_raises (r : Run) :
  let users := fetch_users (feed_rows r) (profiles r) in
  (forall user, user ∈ users -> raises (answers r (User.user_id user)) = false) ->
  snd (main repr r) = true
  /\ last (fst (main repr r)) = Some (Log INFO Done)
  /\ processed (fst (main repr r)) = name_of <$> users
  /\ DigestRow.user_id <$> digests (fst (main repr r))
     = User.user_id
         <$> filter (fun u => digest_due (answers r (User.user_id u)) = true) users.
Proof.
  intros users Hq. unfold main. fold users.
  destruct (process_users_quiet (answers r) users Hq) as (H1 & H2 & H3).
  destruct (process_users repr (answers r) users) as [ev ok].
  cbn [fst snd] in *. subst ok. cbn [fst snd].
  repeat split.
  - by rewrite app_assoc, last_snoc.
  - rewrite !processed_app, H2. cbn. by rewrite app_nil_r.
  - rewrite !digests_app, <- H3. cbn. by rewrite app_nil_r.
Qed.

(** X25: an exception that [main] does not catch ends the run: the
    record [Done] is not logged, the users listed after the one whose
    call raised are not processed, and no digest row is handed over for
    them. *)
Theorem exception_ends_run (r : Run) (before after : list User.t) (user : User.t) :
  fetch_users (feed_rows r) (profiles r) = before ++ user :: after ->
  (forall u, u ∈ before -> raises (answers r (User.user_id u)) = false) ->
  raises (answers r (User.user_id user)) = true ->
  snd (main repr r) = false
  /\ (Log INFO Done ∉ fst (main repr r))
  /\ processed (fst (main repr r)) = name_of <$> before ++ [user]
  /\ forall row u, row ∈ digests (fst (main repr r)) -> u ∈ after ->
       DigestRow.user_id row <> User.user_id u.
Proof.
  intros Husers Hq Hr.
  pose proof (fetch_users_NoDup (feed_rows r) (profiles r)) as Hnd.
  rewrite Husers in Hnd.
  unfold main. rewrite Husers.
  pose proof (process_users_shape (answers r) (before ++ [user])) as [Hdone Hrows].
  assert (Heq : process_users repr (answers r) (before ++ user :: after)
                = (fst (process_users repr (answers r) (before ++ [user])), false)).
  { rewrite !process_users_raise by done. reflexivity. }
  rewrite Heq. cbn [fst snd].
  pose proof (process_users_raise (answers r) before user [] Hq Hr) as Heq'.
  pose proof (process_users_quiet (answers r) before Hq) as (_ & Hp & _).
  pose proof (process_shape user (answers r (User.user_id user)))
    as (_ & Hp' & _).
  repeat split.
  - intros [Hin|Hin]%elem_of_app; [|done].
    by apply list_elem_of_singleton in Hin.
  - rewrite processed_app. cbn [processed omap app].
    rewrite Heq'. cbn [fst]. rewrite processed_app, Hp, Hp'.
    by rewrite fmap_app.
  - intros row u Hrow Hu Hid.
    rewrite digests_app in Hrow. cbn in Hrow.
    destruct (Hrows row Hrow) as (v & _ & Hv & Hidv & _).
    rewrite fmap_app, fmap_cons in Hnd.
    change (User.user_id user :: (User.user_id <$> after))
      with ([User.user_id user] ++ (User.user_id <$> after)) in Hnd.
    rewrite app_assoc in Hnd.
    apply NoDup_app in Hnd as (_ & Hdisj & _).
    apply (Hdisj (User.user_id v)).
    + apply (list_elem_of_fmap_2 User.user_id) in Hv.
      by rewrite fmap_app in Hv.
    + rewrite <- Hidv, Hid. by apply list_elem_of_fmap_2.
Qed.

End WithRepr.

Lemma digest_rows_come_from_own_items_witness :
  exists user its,
    user ∈ fetch_users (feed_rows (run_of_reply (Json first_pick) true))
                       (profiles (run_of_reply (Json first_pick) true))
    /\ DigestRow.user_id
         (digest_row 0 "u1" {[ "overview"%string := VScalar (SStr "Quiet day");
                               "picks"%string :=
                                 VList [VDict {[ "index"%string := VScalar (SInt 1) ]}] ]}
            [{| Pick.item_id := SInt 7; Pick.reason := "" |}])
       = User.user_id user
    /\ items (answers (run_of_reply (Json first_pick) true) (User.user_id user))
       = Some its
    /\ its <> []
    /\ truthy (result_of (answers (run_of_reply (Json first_pick) true)
                            (User.user_id user))) = true
    /\ forall p, p ∈ [{| Pick.item_id := SInt 7; Pick.reason := "" |}] ->
         exists it, it ∈ its /\ Pick.item_id p = Row.id it.
Proof.
  apply (digest_rows_come_from_own_items repr_blank
           (run_of_reply (Json first_pick) true)
           (digest_row 0 "u1" {[ "overview"%string := VScalar (SStr "Quiet day");
                                 "picks"%string :=
                                   VList [VDict {[ "index"%string := VScalar (SInt 1) ]}] ]}
              [{| Pick.item_id := SInt 7; Pick.reason := "" |}])).
  vm_compute. constructor.
Defined.

Lemma run_returns_when_nothing_raises_witness :
  snd (main repr_blank (run_of_reply (JSONDecodeError "Expecting value") true))
  = true.
Proof.
  refine (proj1 (run_returns_when_nothing_raises repr_blank
                   (run_of_reply (JSONDecodeError "Expecting value") true) _)).
  intros user _. reflexivity.
Defined.

Lemma exception_ends_run_witness :
  snd (main repr_blank (run_of_reply (Json (VList [VScalar (SInt 1)])) true))
  = false.
Proof.
  refine (proj1 (exception_ends_run repr_blank
                   (run_of_reply (Json (VList [VScalar (SInt 1)])) true)
                   [] [] ann _ _ _)).
  - vm_compute. reflexivity.
  - intros u Hu. by apply elem_of_nil in Hu.
  - reflexivity.
Defined.

End DigestRunFacts.
